(** * FastDrop: the upload orchestration engine

    A shallow embedding of the renderer-side upload state machine
    ([src/App.tsx]: [addFile], [uploadFile], [removeFile],
    [copyToClipboard]) and of the main-process handlers
    ([src/main.ts]: ['upload-file'], [uploadTo0x0], [uploadToGoogleDrive],
    and the configuration handlers), followed by the properties the
    specification states about them. *)

From Stdlib Require Import ZArith String Ascii DecimalString.
From Stdlib.Strings Require Import Byte.
From stdpp Require Import base option list numbers gmap.

Open Scope Z_scope.
Set Warnings "-register-all".

(** ** JavaScript strings

    A JavaScript string is a sequence of UTF-16 code units.  Literals of
    the source are written [str "..."]. *)

Definition jsstring := list N.

Definition str (s : string) : jsstring :=
  (λ a, N_of_ascii a) <$> list_ascii_of_string s.
Arguments str : simpl never.

(** [`${n}`] for a non-negative integer [n]. *)
Definition decimal (n : N) : jsstring :=
  str (NilZero.string_of_uint (N.to_uint n)).

(** A string is truthy when it is not empty. *)
Definition nonempty (s : jsstring) : bool :=
  match s with [] => false | _ => true end.

(** White space and line terminators removed by [String.prototype.trim]:
    TAB, LF, VT, FF, CR, SP, NBSP, the Unicode space separators, LS, PS
    and the byte order mark. *)
Definition is_whitespace (c : N) : bool :=
  bool_decide (c ∈ [9; 10; 11; 12; 13; 32; 160; 5760;
                    8192; 8193; 8194; 8195; 8196; 8197; 8198; 8199; 8200;
                    8201; 8202; 8232; 8233; 8239; 8287; 12288; 65279]%N).

Fixpoint trimStart (s : jsstring) : jsstring :=
  match s with
  | c :: s' => if is_whitespace c then trimStart s' else s
  | [] => []
  end.

Definition trimEnd (s : jsstring) : jsstring :=
  reverse (trimStart (reverse s)).

Definition trim (s : jsstring) : jsstring := trimEnd (trimStart s).

(** [s.split(sep)] for a one-unit separator: never empty. *)
Fixpoint split (sep : N) (s : jsstring) : list jsstring :=
  match s with
  | [] => [[]]
  | c :: s' =>
      if bool_decide (c = sep) then [] :: split sep s'
      else match split sep s' with
           | seg :: rest => (c :: seg) :: rest
           | [] => [[c]]
           end
  end.

Definition slash : N := 47%N.

(** [s.split('/').pop() || dflt] *)
Definition last_segment_or (s dflt : jsstring) : jsstring :=
  match last (split slash s) with
  | Some seg => if nonempty seg then seg else dflt
  | None => dflt
  end.

(** ** Exceptions and state

    Handlers are sequences of calls that read and write some state and may
    throw; [try { .. } catch (error) { .. }] keeps the state changes made
    before the throw. *)

(** A thrown value: an [Error] object with its [name] and [message], or
    any other value, kept as the text [String()] gives for it. *)
Inductive Thrown :=
| ErrorObject (name message : jsstring)
| OtherValue (text : jsstring).

(** [new Error(message)] *)
Definition new_Error (message : jsstring) : Thrown :=
  ErrorObject (str "Error") message.

(** [error instanceof Error] *)
Definition instanceof_Error (error : Thrown) : bool :=
  match error with ErrorObject _ _ => true | OtherValue _ => false end.

(** [error.message] *)
Definition message_of (error : Thrown) : jsstring :=
  match error with ErrorObject _ m => m | OtherValue _ => [] end.

(** [`${error}`]: [Error.prototype.toString] for an [Error] object. *)
Definition toString (error : Thrown) : jsstring :=
  match error with
  | ErrorObject n m =>
      if negb (nonempty n) then m
      else if negb (nonempty m) then n
      else n ++ str ": " ++ m
  | OtherValue t => t
  end.

Inductive Throws (A : Type) : Type :=
| Returned (a : A)
| Threw (e : Thrown).
Arguments Returned {A} a.
Arguments Threw {A} e.

Definition M (S A : Type) : Type := S → Throws A * S.

Definition ret {S A} (a : A) : M S A := λ s, (Returned a, s).

Definition throw {S A} (e : Thrown) : M S A := λ s, (Threw e, s).

Definition bind {S A B} (m : M S A) (k : A → M S B) : M S B :=
  λ s, match m s with
       | (Returned a, s') => k a s'
       | (Threw e, s') => (Threw e, s')
       end.

Definition try_catch {S A} (body : M S A) (handler : Thrown → M S A) : M S A :=
  λ s, match body s with
       | (Returned a, s') => (Returned a, s')
       | (Threw e, s') => handler e s'
       end.

Definition gets {S A} (f : S → A) : M S A := λ s, (Returned (f s), s).

Definition modify {S} (f : S → S) : M S () := λ s, (Returned (), f s).

Definition when {S} (c : bool) (m : M S ()) : M S () :=
  if c then m else ret ().

Notation "x <- m ;; k" := (bind m (λ x, k))
  (at level 100, m at next level, right associativity).
Notation "m ;; k" := (bind m (λ _, k))
  (at level 100, right associativity).

(** ** The renderer: [src/App.tsx] *)

Module App.

(** [type UploadState = 'idle' | 'uploading' | 'success' | 'error'] *)
Inductive UploadState := Idle | Uploading | Success | Error.

#[global] Instance UploadState_eq_dec : EqDecision UploadState.
Proof. solve_decision. Defined.

(** [service: 'googledrive' | '0x0'] *)
Inductive Service := googledrive | zero_x_zero.

#[global] Instance Service_eq_dec : EqDecision Service.
Proof. solve_decision. Defined.

Record FileUpload := {
  path : jsstring;
  name : jsstring;
  state : UploadState;
  progress : Z;
  url : option jsstring;
  error : option jsstring
}.

#[global] Instance FileUpload_eq_dec : EqDecision FileUpload.
Proof. solve_decision. Defined.

(** What the renderer asks of the outside: the calls through
    [window.electronAPI] and to [navigator.clipboard], in the order made. *)
Inductive Call :=
| IpcUploadFile (filePath : jsstring) (service : Service)
| ClipboardWriteText (text : jsstring)
| IpcShowNotification (title body url : jsstring).

#[global] Instance Call_eq_dec : EqDecision Call.
Proof. solve_decision. Defined.

(** What one call of [uploadFile] keeps in its closure across the [await]:
    [fileIndex], [file = files[fileIndex]], and the [selectedService] and
    [autoCopy] of the render in which the Upload button was clicked. *)
Record Upload := {
  fileIndex : nat;
  file : FileUpload;
  service : Service;
  auto_copy : bool
}.

(** The component state ([files], [selectedService], [autoCopy]), whether
    [window.electronAPI] is there, the uploads still awaited, keyed by the
    handle [progressInterval] of their interval (the interval is cleared
    first thing when the awaited call settles), and the calls made. *)
Record World := {
  files : list FileUpload;
  selectedService : Service;
  autoCopy : bool;
  electronAPI : bool;
  pending : gmap nat Upload;
  nextTimer : nat;
  calls : list Call
}.

Definition init (api : bool) : World :=
  {| files := []; selectedService := zero_x_zero; autoCopy := false;
     electronAPI := api; pending := ∅; nextTimer := 0%nat; calls := [] |}.

(** *** State updaters, as passed to [setFiles] *)

Definition addFile (filePath : jsstring) (prev : list FileUpload) : list FileUpload :=
  let fileName := last_segment_or filePath filePath in
  let newFile := {| path := filePath; name := fileName; state := Idle;
                    progress := 0; url := None; error := None |} in
  match list_find (λ f, path f = filePath) prev with
  | Some existingFile => prev
  | None => prev ++ [newFile]
  end.

(** [{ ...f, state: 'uploading', progress: 0 }] at [fileIndex] *)
Definition mark_uploading (fileIndex : nat) (prev : list FileUpload) : list FileUpload :=
  imap (λ i f, if bool_decide (i = fileIndex)
               then {| path := path f; name := name f; state := Uploading;
                       progress := 0; url := url f; error := error f |}
               else f) prev.

(** The callback of [progressInterval]. *)
Definition progress_tick (fileIndex : nat) (prev : list FileUpload) : list FileUpload :=
  imap (λ i f, if bool_decide (i = fileIndex) && bool_decide (state f = Uploading)
                  && bool_decide (progress f < 90)
               then {| path := path f; name := name f; state := state f;
                       progress := progress f + 10; url := url f; error := error f |}
               else f) prev.

(** [{ ...f, state: 'success', progress: 100, url: url.trim() }] at [fileIndex] *)
Definition mark_success (fileIndex : nat) (u : jsstring) (prev : list FileUpload) : list FileUpload :=
  imap (λ i f, if bool_decide (i = fileIndex)
               then {| path := path f; name := name f; state := Success;
                       progress := 100; url := Some (trim u); error := error f |}
               else f) prev.

(** [{ ...f, state: 'error', progress: 0, error: .. }] at [fileIndex] *)
Definition mark_error (fileIndex : nat) (e : Thrown) (prev : list FileUpload) : list FileUpload :=
  imap (λ i f, if bool_decide (i = fileIndex)
               then {| path := path f; name := name f; state := Error;
                       progress := 0; url := url f;
                       error := Some (if instanceof_Error e then message_of e
                                      else str "Upload failed") |}
               else f) prev.

(** [prev.filter((_, i) => i !== index)] *)
Definition removeFile (index : nat) (prev : list FileUpload) : list FileUpload :=
  snd <$> filter (λ p, p.1 ≠ index) (imap (λ i f, (i, f)) prev).

(** *** Effects *)

Definition setFiles (u : list FileUpload → list FileUpload) : M World () :=
  modify (λ w, {| files := u (files w); selectedService := selectedService w;
                  autoCopy := autoCopy w; electronAPI := electronAPI w;
                  pending := pending w; nextTimer := nextTimer w;
                  calls := calls w |}).

Definition call (c : Call) : M World () :=
  modify (λ w, {| files := files w; selectedService := selectedService w;
                  autoCopy := autoCopy w; electronAPI := electronAPI w;
                  pending := pending w; nextTimer := nextTimer w;
                  calls := calls w ++ [c] |}).

(** [setInterval]: a fresh handle, under which the upload is awaited. *)
Definition setInterval (u : Upload) : M World nat :=
  λ w, (Returned (nextTimer w),
        {| files := files w; selectedService := selectedService w;
           autoCopy := autoCopy w; electronAPI := electronAPI w;
           pending := <[nextTimer w := u]> (pending w);
           nextTimer := S (nextTimer w); calls := calls w |}).

Definition clearInterval (progressInterval : nat) : M World () :=
  modify (λ w, {| files := files w; selectedService := selectedService w;
                  autoCopy := autoCopy w; electronAPI := electronAPI w;
                  pending := delete progressInterval (pending w);
                  nextTimer := nextTimer w; calls := calls w |}).

Definition copyToClipboard (u : jsstring) : M World () :=
  call (ClipboardWriteText u).

Definition showNotification (title body u : jsstring) : M World () :=
  call (IpcShowNotification title body u).

(** How the awaited [window.electronAPI.uploadFile(..)] settles. *)
Inductive Settled :=
| Resolved (url : jsstring)
| Rejected (error : Thrown).

Definition await (r : Settled) : M World jsstring :=
  match r with
  | Resolved u => ret u
  | Rejected e => throw e
  end.

(** [uploadFile(fileIndex)] up to its [await]. *)
Definition uploadFile_begin (fileIndex : nat) : M World () :=
  w <- gets id ;;
  match files w !! fileIndex with
  | None => ret ()
  | Some file =>
      if negb (electronAPI w) then ret ()
      else
        setFiles (mark_uploading fileIndex) ;;
        _ <- setInterval {| fileIndex := fileIndex; file := file;
                            service := selectedService w;
                            auto_copy := autoCopy w |} ;;
        call (IpcUploadFile (path file) (selectedService w))
  end.

(** [uploadFile] from its [await] on: the [try] block once the call has
    settled, and the [catch] block. *)
Definition uploadFile_resume (progressInterval : nat) (u : Upload) (r : Settled) : M World () :=
  try_catch
    (url <- await r ;;
     clearInterval progressInterval ;;
     setFiles (mark_success (fileIndex u) url) ;;
     when (auto_copy u && nonempty url) (copyToClipboard (trim url)) ;;
     api <- gets electronAPI ;;
     when (api && nonempty url)
       (let fileName := name (file u) in
        let notificationBody :=
          if auto_copy u
          then fileName ++ str " uploaded successfully! Link copied to clipboard."
          else fileName ++ str " uploaded successfully! Click to view in app." in
        showNotification (str "FastDrop - Upload Complete") notificationBody (trim url)))
    (λ error,
     clearInterval progressInterval ;;
     setFiles (mark_error (fileIndex u) error)).

(** [setAutoCopyState] *)
Definition setAutoCopyState (enabled : bool) : M World () :=
  modify (λ w, {| files := files w; selectedService := selectedService w;
                  autoCopy := enabled; electronAPI := electronAPI w;
                  pending := pending w; nextTimer := nextTimer w;
                  calls := calls w |}).

(** [toggleAutoCopy], given how [window.electronAPI.setAutoCopy(..)]
    settles for the value asked. *)
Definition toggleAutoCopy (setAutoCopy : bool → Throws bool) : M World () :=
  api <- gets electronAPI ;;
  when api
    (try_catch
       (current <- gets autoCopy ;;
        let newAutoCopy := negb current in
        success <- (λ w, (setAutoCopy newAutoCopy, w)) ;;
        when success (setAutoCopyState newAutoCopy))
       (λ _, ret ())).

(** The settings form: the two input fields, the credentials the
    component holds, and whether the form is open. *)
Record Settings := {
  clientId : jsstring;
  clientSecret : jsstring;
  googleCredentials : option (jsstring * jsstring);
  showSettings : bool
}.

(** [saveCredentials], given whether [window.electronAPI] is there and
    how [window.electronAPI.saveGoogleCredentials(..)] settles. *)
Definition saveCredentials (api : bool)
    (saveGoogleCredentials : jsstring → jsstring → Throws ()) : M Settings () :=
  form <- gets id ;;
  when (api && nonempty (trim (clientId form)) && nonempty (trim (clientSecret form)))
    (try_catch
       ((λ s, (saveGoogleCredentials (trim (clientId form)) (trim (clientSecret form)), s)) ;;
        modify (λ s, {| clientId := clientId s; clientSecret := clientSecret s;
                        googleCredentials :=
                          Some (trim (clientId form), trim (clientSecret form));
                        showSettings := showSettings s |}) ;;
        modify (λ s, {| clientId := clientId s; clientSecret := clientSecret s;
                        googleCredentials := googleCredentials s;
                        showSettings := false |}))
       (λ _, ret ())).

(** *** Events

    What can happen to the component: a path arrives ([file-selected],
    [files-dropped], [files-selected], a drop on the window); a button of
    the file list is clicked, each rendered only as the JSX says (Upload
    for an idle file, Copy URL for a successful file with a url, the
    remove button for every file); an interval fires; an awaited upload
    settles; the service or the auto-copy setting changes. *)
Inductive Event :=
| FileArrives (filePath : jsstring)
| ClickUpload (index : nat)
| ClickCopyURL (index : nat)
| ClickRemove (index : nat)
| IntervalFires (progressInterval : nat)
| UploadSettles (progressInterval : nat) (r : Settled)
| SetSelectedService (s : Service)
| SetAutoCopyState (enabled : bool).

Definition run_handler (m : M World ()) (w : World) : World := (m w).2.

Definition step (w : World) (e : Event) : option World :=
  match e with
  | FileArrives filePath => Some (run_handler (setFiles (addFile filePath)) w)
  | ClickUpload index =>
      f ← files w !! index;
      if bool_decide (state f = Idle)
      then Some (run_handler (uploadFile_begin index) w) else None
  | ClickCopyURL index =>
      f ← files w !! index;
      match url f with
      | Some u => if bool_decide (state f = Success) && nonempty u
                  then Some (run_handler (copyToClipboard u) w) else None
      | None => None
      end
  | ClickRemove index =>
      _ ← files w !! index;
      Some (run_handler (setFiles (removeFile index)) w)
  | IntervalFires h =>
      u ← pending w !! h;
      Some (run_handler (setFiles (progress_tick (fileIndex u))) w)
  | UploadSettles h r =>
      u ← pending w !! h;
      Some (run_handler (uploadFile_resume h u r) w)
  | SetSelectedService s =>
      Some {| files := files w; selectedService := s; autoCopy := autoCopy w;
              electronAPI := electronAPI w; pending := pending w;
              nextTimer := nextTimer w; calls := calls w |}
  | SetAutoCopyState enabled =>
      Some {| files := files w; selectedService := selectedService w;
              autoCopy := enabled; electronAPI := electronAPI w;
              pending := pending w; nextTimer := nextTimer w;
              calls := calls w |}
  end.

Fixpoint run (w : World) (evs : list Event) : option World :=
  match evs with
  | [] => Some w
  | e :: evs' => w' ← step w e; run w' evs'
  end.

(** Where the file at [i] is after the event: removal shifts the files
    behind it; every other event leaves the positions alone. *)
Definition track (e : Event) (i : nat) : option nat :=
  match e with
  | ClickRemove index =>
      if bool_decide (i = index) then None
      else if bool_decide (i < index)%nat then Some i else Some (pred i)
  | _ => Some i
  end.

(** *** Vocabulary of the properties *)

(** The moves of the state machine of one file: stay, begin, finish. *)
Definition legal (s s' : UploadState) : Prop :=
  s' = s ∨ (s = Idle ∧ s' = Uploading)
  ∨ (s = Uploading ∧ (s' = Success ∨ s' = Error)).

(** What [progress] may be in each state. *)
Definition progress_ok (f : FileUpload) : Prop :=
  match state f with
  | Idle => progress f = 0
  | Uploading => 0 ≤ progress f ≤ 90 ∧ (10 | progress f)
  | Success => progress f = 100
  | Error => progress f = 0
  end.

(** What one event may do to the file at [i]. *)
Inductive change (w : World) : Event → nat → FileUpload → FileUpload → Prop :=
| change_none e i f :
    change w e i f f
| change_begin i f :
    state f = Idle →
    change w (ClickUpload i) i f
      {| path := path f; name := name f; state := Uploading; progress := 0;
         url := url f; error := error f |}
| change_tick h u f :
    pending w !! h = Some u → state f = Uploading → progress f < 90 →
    change w (IntervalFires h) (fileIndex u) f
      {| path := path f; name := name f; state := state f;
         progress := progress f + 10; url := url f; error := error f |}
| change_success h u r f :
    pending w !! h = Some u →
    change w (UploadSettles h (Resolved r)) (fileIndex u) f
      {| path := path f; name := name f; state := Success; progress := 100;
         url := Some (trim r); error := error f |}
| change_error h u e f :
    pending w !! h = Some u →
    change w (UploadSettles h (Rejected e)) (fileIndex u) f
      {| path := path f; name := name f; state := Error; progress := 0;
         url := url f;
         error := Some (if instanceof_Error e then message_of e
                        else str "Upload failed") |}.

(** Every awaited upload still points at a file that is uploading, no two
    of them at the same one, and their handles are used up. *)
Record live (w : World) : Prop := {
  live_uploading : ∀ h u, pending w !! h = Some u →
    ∃ f, files w !! fileIndex u = Some f ∧ state f = Uploading;
  live_unique : ∀ h1 h2 u1 u2,
    pending w !! h1 = Some u1 → pending w !! h2 = Some u2 →
    fileIndex u1 = fileIndex u2 → h1 = h2;
  live_fresh : ∀ h u, pending w !! h = Some u → (h < nextTimer w)%nat
}.

(** Removing the file at [index] moves no file that an awaited upload
    points at: all of them sit before [index]. *)
Definition safe_remove (w : World) (index : nat) : bool :=
  forallb (λ hu, bool_decide (fileIndex hu.2 < index)%nat) (map_to_list (pending w)).

(** A run in which every removal is of that kind. *)
Fixpoint calm (w : World) (evs : list Event) : bool :=
  match evs with
  | [] => true
  | e :: evs' =>
      match e with ClickRemove index => safe_remove w index | _ => true end
      && match step w e with Some w' => calm w' evs' | None => true end
  end.

Definition is_notification (c : Call) : bool :=
  match c with IpcShowNotification _ _ _ => true | _ => false end.


Definition is_upload_call (c : Call) : bool :=
  match c with IpcUploadFile _ _ => true | _ => false end.

(** The entry [addFile] makes for a path. *)
Definition new_file (filePath : jsstring) : FileUpload :=
  {| path := filePath; name := last_segment_or filePath filePath; state := Idle;
     progress := 0; url := None; error := None |}.

(** What [url] and [error] hold in each state when nothing went astray. *)
Definition outcome_ok (f : FileUpload) : Prop :=
  match state f with
  | Idle | Uploading => url f = None ∧ error f = None
  | Success => is_Some (url f) ∧ error f = None
  | Error => url f = None ∧ is_Some (error f)
  end.

(** Every file that is uploading has an awaited upload pointing at it,
    every awaited upload points at the file it was begun for, and [url]
    and [error] go with the state. *)
Record tidy (w : World) : Prop := {
  tidy_pointed : ∀ i f, files w !! i = Some f → state f = Uploading →
    ∃ h u, pending w !! h = Some u ∧ fileIndex u = i;
  tidy_path : ∀ h u, pending w !! h = Some u →
    ∃ f, files w !! fileIndex u = Some f ∧ path f = path (file u)
         ∧ name f = name (file u);
  tidy_outcome : Forall outcome_ok (files w)
}.

(** The notification of a finished upload. *)
Definition upload_complete (u : Upload) (r : jsstring) : Call :=
  IpcShowNotification (str "FastDrop - Upload Complete")
    (if auto_copy u
     then name (file u) ++ str " uploaded successfully! Link copied to clipboard."
     else name (file u) ++ str " uploaded successfully! Click to view in app.")
    (trim r).

(** *** Sample inputs *)

Definition a_txt : jsstring := str "/tmp/a.txt".
Definition b_txt : jsstring := str "/tmp/b.txt".
Definition link : jsstring := str " https://0x0.st/abc.txt ".

(** The world after these events, from the start. *)
Definition after (evs : list Event) : World :=
  default (init true) (run (init true) evs).

End App.

(** ** The main process: [src/main.ts] *)

Module Main.

(** *** JSON values, as [JSON.parse] builds them

    A number is a double.  A finite one is kept as the text [String()]
    gives for it, which is the text [JSON.stringify] writes and from which
    [JSON.parse] reads the same number again; [-0] parses to negative
    zero, and a literal beyond the range of doubles, as [1e400], to an
    infinity.  An object is its list of own properties, in order. *)
Inductive Number :=
| Finite (text : jsstring)
| NegativeZero
| Infinity (negative : bool).

Inductive JSON :=
| JNull
| JBool (b : bool)
| JNum (n : Number)
| JStr (s : jsstring)
| JArr (items : list JSON)
| JObj (fields : list (jsstring * JSON)).

(** A value that may be [undefined] is an [option JSON]. *)
Definition undefined : option JSON := None.

(** [String(n)] *)
Definition Number_toString (n : Number) : jsstring :=
  match n with
  | Finite text => text
  | NegativeZero => str "0"
  | Infinity negative => if negative then str "-Infinity" else str "Infinity"
  end.

(** Zero and negative zero are the numbers that are falsy here. *)
Definition is_zero (n : Number) : bool :=
  match n with
  | Finite text => bool_decide (text = str "0")
  | NegativeZero => true
  | Infinity _ => false
  end.

Definition truthy (v : option JSON) : bool :=
  match v with
  | None | Some JNull => false
  | Some (JBool b) => b
  | Some (JNum n) => negb (is_zero n)
  | Some (JStr s) => nonempty s
  | Some (JArr _) | Some (JObj _) => true
  end.

Fixpoint own_property (key : jsstring) (fields : list (jsstring * JSON)) : option JSON :=
  match fields with
  | [] => None
  | (k, v) :: rest => if bool_decide (k = key) then Some v else own_property key rest
  end.

(** [v.key], for the keys the handlers use ([googleCredentials],
    [clientId], [clientSecret], [autoStart], [autoCopy]): reading from
    [null] or [undefined] throws, a primitive or an array has none of
    these properties. *)
Definition get_prop {S} (v : option JSON) (key : jsstring) : M S (option JSON) :=
  match v with
  | None => throw (ErrorObject (str "TypeError") (str "Cannot read properties of undefined"))
  | Some JNull => throw (ErrorObject (str "TypeError") (str "Cannot read properties of null"))
  | Some (JObj fields) => ret (own_property key fields)
  | Some _ => ret undefined
  end.

(** An existing property keeps its place, a new one goes last. *)
Fixpoint set_field (key : jsstring) (v : JSON) (fields : list (jsstring * JSON))
  : list (jsstring * JSON) :=
  match fields with
  | [] => [(key, v)]
  | (k, old) :: rest =>
      if bool_decide (k = key) then (k, v) :: rest
      else (k, old) :: set_field key v rest
  end.

(** The message of the [TypeError] for an assignment to a primitive, with
    its [typeof] and its text. *)
Definition cannot_create (key type text : jsstring) : Thrown :=
  ErrorObject (str "TypeError")
    (str "Cannot create property '" ++ key ++ str "' on " ++ type
     ++ str " '" ++ text ++ str "'").

(** [config.key = v], as far as [JSON.stringify(config)] will show it:
    assigning to [null] throws, and so does assigning to a primitive (the
    module is strict code); a named property set on an array is not among
    the items that are serialised. *)
Definition set_prop {S} (config : JSON) (key : jsstring) (v : JSON) : M S JSON :=
  match config with
  | JNull =>
      throw (ErrorObject (str "TypeError")
               (str "Cannot set properties of null (setting '" ++ key ++ str "')"))
  | JObj fields => ret (JObj (set_field key v fields))
  | JArr items => ret (JArr items)
  | JBool b =>
      throw (cannot_create key (str "boolean") (if b then str "true" else str "false"))
  | JNum n => throw (cannot_create key (str "number") (Number_toString n))
  | JStr s => throw (cannot_create key (str "string") s)
  end.

(** [JSON.parse(JSON.stringify(v, null, 2))], what the file holds once [v]
    is written to it: an infinity is written as [null] and negative zero
    as [0]; everything else is read back as it was. *)
Fixpoint parse_stringify (v : JSON) : JSON :=
  match v with
  | JNull => JNull
  | JBool b => JBool b
  | JNum (Finite text) => JNum (Finite text)
  | JNum NegativeZero => JNum (Finite (str "0"))
  | JNum (Infinity _) => JNull
  | JStr s => JStr s
  | JArr items => JArr (map parse_stringify items)
  | JObj fields => JObj (map (λ kv, (kv.1, parse_stringify kv.2)) fields)
  end.

(** *** The world outside *)

Definition Buffer := list Byte.byte.

(** [~/.fastdrop/config.json]: absent, something that cannot be read as
    a file, text that [JSON.parse] rejects, or text that parses to [j]. *)
Inductive ConfigFile :=
| NoFile
| IsDirectory
| Corrupt
| Parsed (j : JSON).

Record Response := {
  status : N;
  statusText : jsstring;
  text : jsstring
}.

(** [response.ok]: a status in the range 200-299. *)
Definition ok (r : Response) : bool :=
  bool_decide (200 ≤ status r)%N && bool_decide (status r ≤ 299)%N.

Inductive NetCall :=
| Fetch0x0 (fileBuffer : Buffer) (fileName : jsstring)
| DriveFilesCreate (clientId clientSecret : option JSON) (fileName : jsstring) (fileBuffer : Buffer)
| DrivePermissionsCreate (fileId : jsstring).

(** The path [getConfigPath()] gives, the configuration directory and
    file, the files of the user, the two environment variables, how the
    remote services answer, and the network calls made so far. *)
Record World := {
  configPath : jsstring;
  configDir : bool;
  configFile : ConfigFile;
  userFiles : jsstring → Throws Buffer;
  GOOGLE_CLIENT_ID : option jsstring;
  GOOGLE_CLIENT_SECRET : option jsstring;
  fetch_reply : Buffer → jsstring → Throws Response;
  files_create_reply : jsstring → Buffer → Throws (option jsstring);
  permissions_create_reply : jsstring → Throws ();
  network : list NetCall
}.

Definition with_config (dir : bool) (f : ConfigFile) (w : World) : World :=
  {| configPath := configPath w;
     configDir := dir; configFile := f; userFiles := userFiles w;
     GOOGLE_CLIENT_ID := GOOGLE_CLIENT_ID w;
     GOOGLE_CLIENT_SECRET := GOOGLE_CLIENT_SECRET w;
     fetch_reply := fetch_reply w; files_create_reply := files_create_reply w;
     permissions_create_reply := permissions_create_reply w;
     network := network w |}.

Definition with_call (c : NetCall) (w : World) : World :=
  {| configPath := configPath w;
     configDir := configDir w; configFile := configFile w; userFiles := userFiles w;
     GOOGLE_CLIENT_ID := GOOGLE_CLIENT_ID w;
     GOOGLE_CLIENT_SECRET := GOOGLE_CLIENT_SECRET w;
     fetch_reply := fetch_reply w; files_create_reply := files_create_reply w;
     permissions_create_reply := permissions_create_reply w;
     network := network w ++ [c] |}.

Definition lift {A} (r : Throws A) : M World A := λ w, (r, w).

(** [existsSync(configPath)] *)
Definition existsSync_config : M World bool :=
  gets (λ w, match configFile w with NoFile => false | _ => true end).

(** [JSON.parse(await readFile(configPath, 'utf-8'))]; every handler
    catches what this throws and drops it. *)
Definition read_config : M World JSON :=
  w <- gets id ;;
  match configFile w with
  | NoFile =>
      throw (ErrorObject (str "Error")
               (str "ENOENT: no such file or directory, open '" ++ configPath w ++ str "'"))
  | IsDirectory => throw (ErrorObject (str "Error") (str "EISDIR: illegal operation on a directory, read"))
  | Corrupt => throw (ErrorObject (str "SyntaxError") (str "Unexpected token in JSON"))
  | Parsed j => ret j
  end.

(** [await writeFile(configPath, JSON.stringify(config, null, 2), 'utf-8')] *)
Definition write_config (config : JSON) : M World () :=
  w <- gets id ;;
  if negb (configDir w)
  then throw (ErrorObject (str "Error")
                (str "ENOENT: no such file or directory, open '" ++ configPath w ++ str "'"))
  else match configFile w with
       | IsDirectory =>
           throw (ErrorObject (str "Error")
                    (str "EISDIR: illegal operation on a directory, open '"
                     ++ configPath w ++ str "'"))
       | _ => modify (with_config true (Parsed (parse_stringify config)))
       end.

Definition ensureConfigDir : M World () :=
  dir <- gets configDir ;;
  if negb dir then modify (λ w, with_config true (configFile w) w) else ret ().

Definition fetch (fileBuffer : Buffer) (fileName : jsstring) : M World Response :=
  modify (with_call (Fetch0x0 fileBuffer fileName)) ;;
  w <- gets id ;;
  lift (fetch_reply w fileBuffer fileName).

Definition drive_files_create (clientId clientSecret : option JSON)
    (fileName : jsstring) (fileBuffer : Buffer) : M World (option jsstring) :=
  modify (with_call (DriveFilesCreate clientId clientSecret fileName fileBuffer)) ;;
  w <- gets id ;;
  lift (files_create_reply w fileName fileBuffer).

Definition drive_permissions_create (fileId : jsstring) : M World () :=
  modify (with_call (DrivePermissionsCreate fileId)) ;;
  w <- gets id ;;
  lift (permissions_create_reply w fileId).

(** *** Providers *)

Definition uploadTo0x0 (fileBuffer : Buffer) (fileName : jsstring) : M World jsstring :=
  response <- fetch fileBuffer fileName ;;
  if negb (ok response)
  then
    let errorText := text response in
    throw (new_Error (str "Upload to 0x0.st failed: " ++ decimal (status response)
                      ++ str " " ++ statusText response ++ str " - " ++ errorText))
  else
    let responseText := text response in
    ret (trim responseText).

(** [process.env.NAME || ''] *)
Definition env_or_empty (v : option jsstring) : option JSON :=
  match v with
  | Some s => if nonempty s then Some (JStr s) else Some (JStr [])
  | None => Some (JStr [])
  end.

(** The first [try]/[catch] of [uploadToGoogleDrive]: [CLIENT_ID] and
    [CLIENT_SECRET] from the stored configuration, else from the
    environment. *)
Definition resolve_credentials : M World (option JSON * option JSON) :=
  try_catch
    (ex <- existsSync_config ;;
     if ex then
       config <- read_config ;;
       googleCredentials <- get_prop (Some config) (str "googleCredentials") ;;
       if truthy googleCredentials then
         CLIENT_ID <- get_prop googleCredentials (str "clientId") ;;
         CLIENT_SECRET <- get_prop googleCredentials (str "clientSecret") ;;
         ret (CLIENT_ID, CLIENT_SECRET)
       else throw (new_Error (str "No stored credentials"))
     else throw (new_Error (str "No config file")))
    (λ _,
     w <- gets id ;;
     ret (env_or_empty (GOOGLE_CLIENT_ID w), env_or_empty (GOOGLE_CLIENT_SECRET w))).

Definition not_configured : jsstring :=
  str "Google Drive credentials not configured. Please configure them in the settings.".

Definition uploadToGoogleDrive (fileBuffer : Buffer) (fileName : jsstring) : M World jsstring :=
  try_catch
    (credentials <- resolve_credentials ;;
     let '(CLIENT_ID, CLIENT_SECRET) := credentials in
     if negb (truthy CLIENT_ID) || negb (truthy CLIENT_SECRET)
     then throw (new_Error not_configured)
     else
       fileId <- drive_files_create CLIENT_ID CLIENT_SECRET fileName fileBuffer ;;
       match fileId with
       | Some fileId =>
           if nonempty fileId then
             drive_permissions_create fileId ;;
             ret (str "https://drive.google.com/file/d/" ++ fileId ++ str "/view")
           else throw (new_Error (str "Failed to upload file to Google Drive"))
       | None => throw (new_Error (str "Failed to upload file to Google Drive"))
       end)
    (λ error, throw (new_Error (str "Google Drive upload failed: " ++ toString error))).

(** The provider that ['upload-file'] calls for [service]. *)
Definition provider (service : App.Service) : Buffer → jsstring → M World jsstring :=
  match service with
  | App.zero_x_zero => uploadTo0x0
  | App.googledrive => uploadToGoogleDrive
  end.

(** [ipcMain.handle('upload-file', ..)] *)
Definition upload_file (filePath : jsstring) (service : App.Service) : M World jsstring :=
  try_catch
    (fileBuffer <- (w <- gets id ;; lift (userFiles w filePath)) ;;
     let fileName := last_segment_or filePath (str "file") in
     if bool_decide (service = App.zero_x_zero)
     then uploadTo0x0 fileBuffer fileName
     else uploadToGoogleDrive fileBuffer fileName)
    (λ error, throw (new_Error (str "Upload failed: " ++ toString error))).

(** *** Configuration handlers *)

(** The [let config: any = {}] and the inner [try]/[catch] shared by the
    handlers that write the configuration. *)
Definition load_config : M World JSON :=
  try_catch
    (ex <- existsSync_config ;;
     if ex then read_config else ret (JObj []))
    (λ _, ret (JObj [])).

(** [ipcMain.handle('save-google-credentials', ..)] *)
Definition save_google_credentials (clientId clientSecret : jsstring) : M World () :=
  try_catch
    (ensureConfigDir ;;
     config <- load_config ;;
     config <- set_prop config (str "googleCredentials")
                 (JObj [(str "clientId", JStr clientId);
                        (str "clientSecret", JStr clientSecret)]) ;;
     write_config config)
    (λ error, throw (new_Error (str "Failed to save credentials: " ++ toString error))).

(** [ipcMain.handle('get-google-credentials', ..)] *)
Definition get_google_credentials : M World JSON :=
  try_catch
    (ex <- existsSync_config ;;
     if negb ex then ret JNull
     else
       config <- read_config ;;
       googleCredentials <- get_prop (Some config) (str "googleCredentials") ;;
       if truthy googleCredentials then
         clientId <- get_prop googleCredentials (str "clientId") ;;
         if truthy clientId then
           clientSecret <- get_prop googleCredentials (str "clientSecret") ;;
           match clientId, clientSecret with
           | Some i, Some s =>
               if truthy clientSecret
               then ret (JObj [(str "clientId", i); (str "clientSecret", s)])
               else ret JNull
           | _, _ => ret JNull
           end
         else ret JNull
       else ret JNull)
    (λ _, ret JNull).

(** [ipcMain.handle('set-auto-copy', ..)] *)
Definition set_auto_copy (enabled : bool) : M World bool :=
  try_catch
    (ensureConfigDir ;;
     config <- load_config ;;
     config <- set_prop config (str "autoCopy") (JBool enabled) ;;
     write_config config ;;
     ret true)
    (λ _, ret false).

(** [ipcMain.handle('get-auto-copy', ..)]: [config.autoCopy || false] *)
Definition get_auto_copy : M World JSON :=
  try_catch
    (ex <- existsSync_config ;;
     if negb ex then ret (JBool false)
     else
       config <- read_config ;;
       autoCopy <- get_prop (Some config) (str "autoCopy") ;;
       match autoCopy with
       | Some v => if truthy autoCopy then ret v else ret (JBool false)
       | None => ret (JBool false)
       end)
    (λ _, ret (JBool false)).

(** *** The login item

    [set-auto-start] and [get-auto-start] also go through
    [app.setLoginItemSettings] and [app.getLoginItemSettings]: the world
    with the [openAtLogin] setting of the operating system beside it. *)

Record System := {
  world : World;
  openAtLogin : bool
}.

(** A handler step that only touches the world. *)
Definition in_world {A} (m : M World A) : M System A :=
  λ s, let (r, w') := m (world s) in
       (r, {| world := w'; openAtLogin := openAtLogin s |}).

Definition setAutoStart (enabled : bool) : M System () :=
  modify (λ s, {| world := world s; openAtLogin := enabled |}).

Definition getAutoStart : M System bool := gets openAtLogin.

(** [ipcMain.handle('set-auto-start', ..)] *)
Definition set_auto_start (enabled : bool) : M System bool :=
  try_catch
    (setAutoStart enabled ;;
     in_world ensureConfigDir ;;
     config <- in_world load_config ;;
     config <- set_prop config (str "autoStart") (JBool enabled) ;;
     in_world (write_config config) ;;
     ret true)
    (λ _, ret false).

(** [ipcMain.handle('get-auto-start', ..)]: the configuration is read
    into [configAutoStart], its errors ignored, and the system setting is
    what is returned. *)
Definition get_auto_start : M System bool :=
  try_catch
    (systemAutoStart <- getAutoStart ;;
     configAutoStart <-
       try_catch
         (ex <- in_world existsSync_config ;;
          if ex then
            config <- in_world read_config ;;
            autoStart <- get_prop (Some config) (str "autoStart") ;;
            ret (if truthy autoStart then autoStart else Some (JBool false))
          else ret (Some (JBool false)))
         (λ _, ret (Some (JBool false))) ;;
     ret systemAutoStart)
    (λ _, ret false).

(** *** Vocabulary of the properties *)

(** [value.key] where nothing is thrown: [undefined] unless [value] is
    an object with that property. *)
Definition field (key : jsstring) (value : option JSON) : option JSON :=
  match value with
  | Some (JObj fields) => own_property key fields
  | _ => undefined
  end.

(** What the configuration file holds, [undefined] when there is no
    file or it cannot be read or parsed. *)
Definition stored (w : World) : option JSON :=
  match configFile w with
  | Parsed j => Some j
  | _ => undefined
  end.

(** A credentials record with all its parts: [googleCredentials], its
    [clientId] and its [clientSecret] are there and none is [null],
    [false], [0] or the empty string. *)
Definition complete (config : option JSON) : bool :=
  truthy (field (str "googleCredentials") config)
  && truthy (field (str "clientId") (field (str "googleCredentials") config))
  && truthy (field (str "clientSecret") (field (str "googleCredentials") config)).

(** [!process.env.NAME]: unset or empty. *)
Definition unset (v : option jsstring) : bool :=
  match v with Some s => negb (nonempty s) | None => true end.

(** The [config] a writing handler starts from. *)
Definition starting_config (w : World) : JSON :=
  match configFile w with
  | Parsed j => j
  | _ => JObj []
  end.

(** No infinity and no negative zero anywhere in the value. *)
Fixpoint plain (v : JSON) : bool :=
  match v with
  | JNum (Finite _) => true
  | JNum NegativeZero | JNum (Infinity _) => false
  | JNull | JBool _ | JStr _ => true
  | JArr items => forallb plain items
  | JObj fields => forallb (λ kv, plain kv.2) fields
  end.

(** The configuration cannot be written: the file is not a file, or it
    parses to [null] or to a primitive, on which no property can be set. *)
Definition refuses_write (w : World) : bool :=
  match configFile w with
  | IsDirectory => true
  | Parsed (JNull | JBool _ | JNum _ | JStr _) => true
  | _ => false
  end.

(** *** Sample inputs *)

Definition config_json : jsstring := str "/Users/me/.fastdrop/config.json".

(** A world with the given configuration file, environment and answer
    of 0x0.st, where every file of the user reads as ten bytes and Google
    Drive accepts everything. *)
Definition sample (f : ConfigFile) (id secret : option jsstring)
    (reply : Throws Response) : World :=
  {| configPath := config_json;
     configDir := true; configFile := f;
     userFiles := λ _, Returned (replicate 10 x00);
     GOOGLE_CLIENT_ID := id; GOOGLE_CLIENT_SECRET := secret;
     fetch_reply := λ _ _, reply;
     files_create_reply := λ _ _, Returned (Some (str "f1"));
     permissions_create_reply := λ _, Returned ();
     network := [] |}.

Definition reply_200 : Response :=
  {| status := 200; statusText := str "OK";
     text := str " https://0x0.st/abc.txt " |}.

Definition reply_500 : Response :=
  {| status := 500; statusText := str "Internal Server Error";
     text := str "oops" |}.

Definition settings : JSON :=
  JObj [(str "autoStart", JBool true); (str "autoCopy", JBool true)].

Definition credentials_file : JSON :=
  JObj [(str "googleCredentials",
         JObj [(str "clientId", JStr (str "id"));
               (str "clientSecret", JStr (str "secret"))])].

(** A world with stored credentials and the given answers of Google
    Drive, where no file of the user can be read. *)
Definition drive_sample (create : Throws (option jsstring)) (permit : Throws ()) : World :=
  {| configPath := config_json;
     configDir := true; configFile := Parsed credentials_file;
     userFiles := λ filePath,
       Threw (ErrorObject (str "Error")
                (str "ENOENT: no such file or directory, open '" ++ filePath ++ str "'"));
     GOOGLE_CLIENT_ID := None; GOOGLE_CLIENT_SECRET := None;
     fetch_reply := λ _ _, Returned reply_200;
     files_create_reply := λ _ _, create;
     permissions_create_reply := λ _, permit;
     network := [] |}.

End Main.

(** ** The two processes together

    The preload script maps each [window.electronAPI] function to
    [ipcRenderer.invoke] of the handler of that name: what the handler
    returns is what the renderer's promise resolves to. *)

Module Wiring.

(** [toggleAutoCopy] with ['set-auto-copy'] behind it. *)
Definition toggle_auto_copy (aw : App.World) (mw : Main.World) : App.World * Main.World :=
  let newAutoCopy := negb (App.autoCopy aw) in
  if App.electronAPI aw
  then ((App.toggleAutoCopy (λ enabled, (Main.set_auto_copy enabled mw).1) aw).2,
        (Main.set_auto_copy newAutoCopy mw).2)
  else (aw, mw).

(** [saveCredentials] with ['save-google-credentials'] behind it. *)
Definition save_credentials (api : bool) (form : App.Settings) (mw : Main.World)
  : App.Settings * Main.World :=
  ((App.saveCredentials api (λ i s, (Main.save_google_credentials i s mw).1) form).2,
   if api && nonempty (trim (App.clientId form))
      && nonempty (trim (App.clientSecret form))
   then (Main.save_google_credentials (trim (App.clientId form))
           (trim (App.clientSecret form)) mw).2
   else mw).

(** A click on Upload with ['upload-file'] behind it, for an upload that
    the handler answers with a link: the link is what the awaited call
    resolves to. *)
Definition upload_and_resolve (index : nat) (aw : App.World) (mw : Main.World)
  : option (App.World * Main.World) :=
  f ← App.files aw !! index;
  aw1 ← App.step aw (App.ClickUpload index);
  match Main.upload_file (App.path f) (App.selectedService aw) mw with
  | (Returned link, mw') =>
      aw2 ← App.step aw1 (App.UploadSettles (App.nextTimer aw) (App.Resolved link));
      Some (aw2, mw')
  | (Threw _, _) => None
  end.

End Wiring.

(** ** Properties of the renderer *)

Module AppFacts.
Import App.

Lemma removeFile_shift (k index : nat) (l : list FileUpload) :
  snd <$> filter (λ p, p.1 ≠ index) (imap (λ i f, ((k + i)%nat, f)) l)
  = if bool_decide (k ≤ index)%nat then delete (index - k)%nat l else l.
Proof.
  revert k. induction l as [|x l IH]; intros k.
  - by case_bool_decide.
  - rewrite imap_cons.
    rewrite (imap_ext _ (λ i f, ((S k + i)%nat, f))); last first.
    { intros i y _. simpl. f_equal. lia. }
    rewrite Nat.add_0_r, filter_cons.
    destruct (decide ((k, x).1 ≠ index)) as [Hne|Heq]; cbn [fst] in *.
    + rewrite fmap_cons, IH. cbn [snd].
      repeat case_bool_decide; try lia; [|done].
      by replace (index - k)%nat with (S (index - S k)) by lia.
    + assert (k = index) as -> by (destruct (decide (k = index)); [done|contradiction]).
      rewrite IH. repeat case_bool_decide; try lia.
      by rewrite Nat.sub_diag.
Qed.

Lemma removeFile_delete index l : removeFile index l = delete index l.
Proof.
  unfold removeFile. rewrite (removeFile_shift 0). simpl.
  by rewrite Nat.sub_0_r.
Qed.

(** The handlers, run. *)

Lemma begin_run w index f0 :
  files w !! index = Some f0 →
  run_handler (uploadFile_begin index) w =
    if electronAPI w
    then {| files := mark_uploading index (files w);
            selectedService := selectedService w; autoCopy := autoCopy w;
            electronAPI := electronAPI w;
            pending := <[nextTimer w := {| fileIndex := index; file := f0;
                                          service := selectedService w;
                                          auto_copy := autoCopy w |}]> (pending w);
            nextTimer := S (nextTimer w);
            calls := calls w ++ [IpcUploadFile (path f0) (selectedService w)] |}
    else w.
Proof.
  intros Hf. unfold run_handler, uploadFile_begin, bind, gets. simpl.
  rewrite Hf. destruct (electronAPI w) eqn:E; simpl; rewrite ?E; done.
Qed.

Lemma resume_resolved h u r w :
  uploadFile_resume h u (Resolved r) w =
    (Returned (),
     {| files := mark_success (fileIndex u) r (files w);
        selectedService := selectedService w; autoCopy := autoCopy w;
        electronAPI := electronAPI w; pending := delete h (pending w);
        nextTimer := nextTimer w;
        calls := calls w
                 ++ (if auto_copy u && nonempty r then [ClipboardWriteText (trim r)] else [])
                 ++ (if electronAPI w && nonempty r then [upload_complete u r] else []) |}).
Proof.
  unfold uploadFile_resume, try_catch, bind, await, ret, when, gets,
    clearInterval, setFiles, copyToClipboard, showNotification, call, modify,
    upload_complete.
  simpl.
  destruct (auto_copy u), (nonempty r), (electronAPI w); simpl;
    rewrite ?app_nil_r, <- ?app_assoc; reflexivity.
Qed.

Lemma resume_rejected h u e w :
  uploadFile_resume h u (Rejected e) w =
    (Returned (),
     {| files := mark_error (fileIndex u) e (files w);
        selectedService := selectedService w; autoCopy := autoCopy w;
        electronAPI := electronAPI w; pending := delete h (pending w);
        nextTimer := nextTimer w; calls := calls w |}).
Proof. reflexivity. Qed.

Lemma addFile_lookup p l i f : l !! i = Some f → addFile p l !! i = Some f.
Proof.
  intros Hf. unfold addFile. destruct (list_find _ l); [done|].
  by apply lookup_app_l_Some.
Qed.

Lemma removeFile_lookup index l i i' :
  track (ClickRemove index) i = Some i' → removeFile index l !! i' = l !! i.
Proof.
  rewrite removeFile_delete. simpl. repeat case_bool_decide; intros [= <-].
  - by apply list_lookup_delete_lt.
  - rewrite list_lookup_delete_ge by lia. f_equal. lia.
Qed.

Lemma step_change w e w' i f i' :
  step w e = Some w' → files w !! i = Some f → track e i = Some i' →
  ∃ f', files w' !! i' = Some f' ∧ change w e i f f'.
Proof.
  intros Hstep Hf Htr.
  destruct e as [p|index|index|index|h|h r|s|b]; simpl in Hstep;
    try (injection Htr as <-).
  - injection Hstep as <-. exists f. split; [|constructor].
    by apply addFile_lookup.
  - destruct (files w !! index) as [f0|] eqn:Hf0; [|done]. simpl in Hstep.
    case_bool_decide as Hidle; [|done]. injection Hstep as <-.
    rewrite (begin_run _ _ f0) by done.
    destruct (electronAPI w); [|exists f; split; [done|constructor]].
    simpl. unfold mark_uploading. rewrite list_lookup_imap, Hf. simpl.
    case_bool_decide as Hi; eexists; (split; [done|]).
    + subst i. rewrite Hf in Hf0. injection Hf0 as ->. by constructor.
    + constructor.
  - destruct (files w !! index) as [f0|]; [|done]. simpl in Hstep.
    destruct (url f0); [|done]. destruct (_ && _); [|done].
    injection Hstep as <-. exists f. split; [done|constructor].
  - destruct (files w !! index) as [f0|]; [|done]. injection Hstep as <-.
    exists f. split; [|constructor]. cbn.
    by rewrite (removeFile_lookup index _ i i').
  - destruct (pending w !! h) as [u|] eqn:Hu; [|done]. injection Hstep as <-.
    cbn. unfold progress_tick. rewrite list_lookup_imap, Hf. simpl.
    repeat case_bool_decide; simpl; eexists; (split; [done|]); try constructor.
    subst i. by constructor.
  - destruct (pending w !! h) as [u|] eqn:Hu; [|done]. injection Hstep as <-.
    unfold run_handler. destruct r as [r|e].
    + rewrite resume_resolved. cbn. unfold mark_success.
      rewrite list_lookup_imap, Hf. simpl.
      case_bool_decide; eexists; (split; [done|]); try constructor.
      subst i. by constructor.
    + rewrite resume_rejected. cbn. unfold mark_error.
      rewrite list_lookup_imap, Hf. simpl.
      case_bool_decide; eexists; (split; [done|]); try constructor.
      subst i. by constructor.
  - injection Hstep as <-. exists f. split; [done|constructor].
  - injection Hstep as <-. exists f. split; [done|constructor].
Qed.


Lemma step_files w e w' :
  step w e = Some w' →
  match e with
  | FileArrives p => files w' = addFile p (files w)
  | ClickUpload i =>
      files w' = if electronAPI w then mark_uploading i (files w) else files w
  | ClickRemove i => files w' = delete i (files w)
  | IntervalFires h =>
      ∃ u, pending w !! h = Some u ∧ files w' = progress_tick (fileIndex u) (files w)
  | UploadSettles h (Resolved r) =>
      ∃ u, pending w !! h = Some u ∧ files w' = mark_success (fileIndex u) r (files w)
  | UploadSettles h (Rejected x) =>
      ∃ u, pending w !! h = Some u ∧ files w' = mark_error (fileIndex u) x (files w)
  | _ => files w' = files w
  end.
Proof.
  intros Hstep.
  destruct e as [p|index|index|index|h|h r|s|b]; simpl in Hstep.
  - by injection Hstep as <-.
  - destruct (files w !! index) as [f0|] eqn:Hf0; [|done]. simpl in Hstep.
    case_bool_decide; [|done]. injection Hstep as <-.
    rewrite (begin_run _ _ f0) by done. by destruct (electronAPI w).
  - destruct (files w !! index) as [f0|]; [|done]. simpl in Hstep.
    destruct (url f0); [|done]. destruct (_ && _); [|done].
    by injection Hstep as <-.
  - destruct (files w !! index) as [f0|]; [|done]. injection Hstep as <-.
    cbn. apply removeFile_delete.
  - destruct (pending w !! h) as [u|]; [|done]. injection Hstep as <-. eauto.
  - destruct (pending w !! h) as [u|]; [|done]. injection Hstep as <-.
    unfold run_handler. destruct r.
    + rewrite resume_resolved. eauto.
    + rewrite resume_rejected. eauto.
  - by injection Hstep as <-.
  - by injection Hstep as <-.
Qed.

Lemma Forall_imap_preserved {A} (P : A → Prop) (g : nat → A → A) l :
  (∀ i x, P x → P (g i x)) → Forall P l → Forall P (imap g l).
Proof.
  intros Hg Hl. apply Forall_lookup_2. intros i y.
  rewrite list_lookup_imap. intros Hy.
  destruct (l !! i) as [x|] eqn:Hx; [|done]. injection Hy as <-.
  apply Hg. by eapply Forall_lookup_1.
Qed.

Lemma paths_imap (g : nat → FileUpload → FileUpload) l :
  (∀ i x, path (g i x) = path x) → path <$> imap g l = path <$> l.
Proof.
  intros Hg. rewrite fmap_imap, <- (imap_const path).
  apply imap_ext. intros i x _. apply Hg.
Qed.

Lemma paths_mark_uploading i l : path <$> mark_uploading i l = path <$> l.
Proof. apply paths_imap. intros j x. by case_bool_decide. Qed.

Lemma paths_progress_tick i l : path <$> progress_tick i l = path <$> l.
Proof. apply paths_imap. intros j x. by destruct (_ && _). Qed.

Lemma paths_mark_success i r l : path <$> mark_success i r l = path <$> l.
Proof. apply paths_imap. intros j x. by case_bool_decide. Qed.

Lemma paths_mark_error i e l : path <$> mark_error i e l = path <$> l.
Proof. apply paths_imap. intros j x. by case_bool_decide. Qed.

Lemma addFile_known p l : p ∈ path <$> l → addFile p l = l.
Proof.
  intros Hin. unfold addFile.
  destruct (list_find _ l) eqn:Hfind; [done|].
  apply list_find_None in Hfind. apply list_elem_of_fmap in Hin as (f & -> & Hf).
  by eapply Forall_forall in Hfind.
Qed.

Lemma addFile_fresh p l :
  p ∉ path <$> l →
  addFile p l = l ++ [{| path := p; name := last_segment_or p p; state := Idle;
                         progress := 0; url := None; error := None |}].
Proof.
  intros Hin. unfold addFile.
  destruct (list_find _ l) as [[i f]|] eqn:Hfind; [|done].
  apply list_find_Some in Hfind as (Hf & <- & _). destruct Hin.
  apply list_elem_of_fmap. exists f. split; [done|]. by eapply list_elem_of_lookup_2.
Qed.

Lemma addFile_member p l : p ∈ path <$> addFile p l.
Proof.
  destruct (decide (p ∈ path <$> l)) as [Hin|Hin].
  - by rewrite addFile_known.
  - rewrite addFile_fresh by done. rewrite fmap_app. set_solver.
Qed.

Lemma addFile_NoDup p l : NoDup (path <$> l) → NoDup (path <$> addFile p l).
Proof.
  intros Hl. destruct (decide (p ∈ path <$> l)) as [Hin|Hin].
  - by rewrite addFile_known.
  - rewrite addFile_fresh by done. rewrite fmap_app. apply NoDup_app.
    split; [done|]. split; [|apply NoDup_singleton].
    intros x Hx. simpl. intros ->%list_elem_of_singleton. done.
Qed.

(** The paths of the list stay pairwise distinct. *)
Lemma step_NoDup w e w' :
  step w e = Some w' → NoDup (path <$> files w) → NoDup (path <$> files w').
Proof.
  intros Hstep Hnd. apply step_files in Hstep.
  destruct e as [p|index|index|index|h|h [r|x]|s|b];
    try destruct Hstep as (u & _ & Hstep); rewrite Hstep.
  - by apply addFile_NoDup.
  - destruct (electronAPI w); [|done]. by rewrite paths_mark_uploading.
  - done.
  - rewrite list_fmap_delete. eapply sublist_NoDup; [done|apply sublist_delete].
  - by rewrite paths_progress_tick.
  - by rewrite paths_mark_success.
  - by rewrite paths_mark_error.
  - done.
  - done.
Qed.

Lemma step_progress_ok w e w' :
  step w e = Some w' → Forall progress_ok (files w) → Forall progress_ok (files w').
Proof.
  intros Hstep Hok. apply step_files in Hstep.
  destruct e as [p|index|index|index|h|h [r|x]|s|b];
    try destruct Hstep as (u & _ & Hstep); rewrite Hstep; try done.
  - unfold addFile. destruct (list_find _ _); [done|].
    apply Forall_app_2; [done|]. by repeat constructor.
  - destruct (electronAPI w); [|done].
    apply Forall_imap_preserved; [|done]. intros i f Hf.
    case_bool_decide; [|done]. unfold progress_ok; simpl.
    split; [lia|]. by exists 0.
  - by apply Forall_delete.
  - apply Forall_imap_preserved; [|done]. intros i f Hf.
    destruct (_ && _) eqn:Hc; [|done].
    apply andb_prop in Hc as [Hc Hlt]. apply andb_prop in Hc as [_ Hup].
    apply bool_decide_eq_true in Hlt, Hup.
    unfold progress_ok in *; simpl. rewrite Hup in *.
    destruct Hf as [Hrange [k Hk]]. split; [|exists (k + 1); lia]. lia.
  - apply Forall_imap_preserved; [|done]. intros i f Hf. by case_bool_decide.
  - apply Forall_imap_preserved; [|done]. intros i f Hf. by case_bool_decide.
Qed.

Lemma run_invariant (P : World → Prop) :
  (∀ w e w', step w e = Some w' → P w → P w') →
  ∀ evs w w', run w evs = Some w' → P w → P w'.
Proof.
  intros Hstep evs. induction evs as [|e evs IH]; intros w w' Hrun Hw; simpl in Hrun.
  - by injection Hrun as <-.
  - destruct (step w e) as [w1|] eqn:He; [|done]. simpl in Hrun. eauto.
Qed.

Lemma reachable_NoDup api evs w :
  run (init api) evs = Some w → NoDup (path <$> files w).
Proof.
  intros Hrun. eapply (run_invariant (λ w, NoDup (path <$> files w))); [|done|].
  - intros ???. apply step_NoDup.
  - constructor.
Qed.

Lemma reachable_progress_ok api evs w :
  run (init api) evs = Some w → Forall progress_ok (files w).
Proof.
  intros Hrun. eapply (run_invariant (λ w, Forall progress_ok (files w))); [|done|].
  - intros ???. apply step_progress_ok.
  - constructor.
Qed.


Lemma step_pending w e w' :
  step w e = Some w' →
  match e with
  | ClickUpload i =>
      ∃ f0, files w !! i = Some f0 ∧ state f0 = Idle ∧
        if electronAPI w
        then pending w' = <[nextTimer w := {| fileIndex := i; file := f0;
                                             service := selectedService w;
                                             auto_copy := autoCopy w |}]> (pending w)
             ∧ nextTimer w' = S (nextTimer w)
        else pending w' = pending w ∧ nextTimer w' = nextTimer w
  | UploadSettles h r =>
      pending w' = delete h (pending w) ∧ nextTimer w' = nextTimer w
  | _ => pending w' = pending w ∧ nextTimer w' = nextTimer w
  end.
Proof.
  intros Hstep.
  destruct e as [p|index|index|index|h|h r|s|b]; simpl in Hstep.
  - by injection Hstep as <-.
  - destruct (files w !! index) as [f0|] eqn:Hf0; [|done]. simpl in Hstep.
    case_bool_decide; [|done]. injection Hstep as <-.
    rewrite (begin_run _ _ f0) by done. exists f0.
    by destruct (electronAPI w).
  - destruct (files w !! index) as [f0|]; [|done]. simpl in Hstep.
    destruct (url f0); [|done]. destruct (_ && _); [|done].
    by injection Hstep as <-.
  - destruct (files w !! index) as [f0|]; [|done]. by injection Hstep as <-.
  - destruct (pending w !! h) as [u|]; [|done]. by injection Hstep as <-.
  - destruct (pending w !! h) as [u|]; [|done]. injection Hstep as <-.
    unfold run_handler. destruct r.
    + by rewrite resume_resolved.
    + by rewrite resume_rejected.
  - by injection Hstep as <-.
  - by injection Hstep as <-.
Qed.

Lemma safe_remove_lt w index h u :
  safe_remove w index = true → pending w !! h = Some u → (fileIndex u < index)%nat.
Proof.
  unfold safe_remove. intros Hall Hu.
  apply Is_true_true, forallb_True in Hall.
  apply elem_of_map_to_list in Hu.
  eapply Forall_forall in Hall; [|done]. simpl in Hall.
  by apply bool_decide_unpack in Hall.
Qed.

Lemma init_live api : live (init api).
Proof. split; intros *; simpl; by rewrite ?lookup_empty. Qed.

Lemma step_live w e w' :
  live w → step w e = Some w' →
  (∀ index, e = ClickRemove index → safe_remove w index = true) →
  live w'.
Proof.
  intros [Hup Huniq Hfresh] Hstep Hsafe.
  pose proof (step_files _ _ _ Hstep) as Hfiles.
  pose proof (step_pending _ _ _ Hstep) as Hpend.
  destruct e as [p|index|index|index|h|h r|s|b].
  - destruct Hpend as [Hp Hn]. split; rewrite ?Hp, ?Hn, ?Hfiles; try done.
    intros h u Hu. destruct (Hup _ _ Hu) as (f & Hf & Hst).
    exists f. split; [|done]. by apply addFile_lookup.
  - destruct Hpend as (f0 & Hf0 & Hidle & Hpend).
    destruct (electronAPI w); destruct Hpend as [Hp Hn];
      [|by split; rewrite ?Hp, ?Hn, ?Hfiles].
    assert (∀ h u, pending w !! h = Some u → fileIndex u ≠ index) as Hother.
    { intros h u Hu Heq. destruct (Hup _ _ Hu) as (f & Hf & Hst).
      rewrite Heq in Hf. congruence. }
    split; rewrite ?Hp, ?Hn, ?Hfiles.
    + intros h u. rewrite lookup_insert. case_decide as Hh.
      * intros [= <-]. simpl. unfold mark_uploading.
        rewrite list_lookup_imap, Hf0. simpl. rewrite bool_decide_eq_true_2 by done.
        eauto.
      * intros Hu. destruct (Hup _ _ Hu) as (f & Hf & Hst). exists f. split; [|done].
        unfold mark_uploading. rewrite list_lookup_imap, Hf. simpl.
        rewrite bool_decide_eq_false_2; [done|]. by eapply Hother.
    + intros h1 h2 u1 u2. rewrite !lookup_insert.
      repeat case_decide; try congruence.
      * intros [= <-] Hu2 Heq. simpl in Heq. symmetry in Heq. by apply Hother in Hu2.
      * intros Hu1 [= <-] Heq. simpl in Heq. by apply Hother in Hu1.
      * apply Huniq.
    + intros h u. rewrite lookup_insert. case_decide.
      * intros _. lia.
      * intros Hu. apply Hfresh in Hu. lia.
  - destruct Hpend as [Hp Hn]. by split; rewrite ?Hp, ?Hn, ?Hfiles.
  - destruct Hpend as [Hp Hn]. split; rewrite ?Hp, ?Hn, ?Hfiles; try done.
    intros h u Hu. destruct (Hup _ _ Hu) as (f & Hf & Hst).
    exists f. split; [|done]. rewrite list_lookup_delete_lt; [done|].
    eapply safe_remove_lt; [|done]. by apply Hsafe.
  - destruct Hpend as [Hp Hn]. destruct Hfiles as (u0 & Hu0 & Hfiles).
    split; rewrite ?Hp, ?Hn, ?Hfiles; try done.
    intros h' u Hu. destruct (Hup _ _ Hu) as (f & Hf & Hst).
    unfold progress_tick. rewrite list_lookup_imap, Hf. simpl.
    destruct (_ && _); eauto.
  - destruct Hpend as [Hp Hn].
    assert (∃ u0, pending w !! h = Some u0 ∧
              ∀ i f, i ≠ fileIndex u0 → files w !! i = Some f → files w' !! i = Some f)
      as (u0 & Hu0 & Hkeep).
    { destruct r; destruct Hfiles as (u0 & Hu0 & ->); exists u0; (split; [done|]);
        intros i f Hi Hf; unfold mark_success, mark_error;
        rewrite list_lookup_imap, Hf; simpl; by rewrite bool_decide_eq_false_2. }
    split; rewrite ?Hp, ?Hn.
    + intros h' u. rewrite lookup_delete. case_decide as Hh; [done|].
      intros Hu. destruct (Hup _ _ Hu) as (f & Hf & Hst). exists f. split; [|done].
      apply Hkeep; [|done]. intros Heq. apply Hh. by eapply Huniq.
    + intros h1 h2 u1 u2. rewrite !lookup_delete. repeat case_decide; try done.
      apply Huniq.
    + intros h' u. rewrite lookup_delete. case_decide; [done|]. apply Hfresh.
  - destruct Hpend as [Hp Hn]. by split; rewrite ?Hp, ?Hn, ?Hfiles.
  - destruct Hpend as [Hp Hn]. by split; rewrite ?Hp, ?Hn, ?Hfiles.
Qed.

Lemma calm_live evs : ∀ w w',
  live w → calm w evs = true → run w evs = Some w' → live w'.
Proof.
  induction evs as [|e evs IH]; intros w w' Hw Hcalm Hrun; simpl in *.
  - by injection Hrun as <-.
  - destruct (step w e) as [w1|] eqn:He; [|done]. simpl in Hrun.
    apply andb_prop in Hcalm as [Hsafe Hcalm].
    eapply IH; [|done..]. eapply step_live; [done..|].
    by intros index ->.
Qed.

Lemma calm_snoc evs e : ∀ w w1,
  calm w (evs ++ [e]) = true → run w evs = Some w1 →
  calm w evs = true ∧ ∀ index, e = ClickRemove index → safe_remove w1 index = true.
Proof.
  induction evs as [|e0 evs IH]; intros w w1 Hcalm Hrun; simpl in *.
  - injection Hrun as <-. split; [done|]. intros index ->.
    by apply andb_prop in Hcalm as [? _].
  - destruct (step w e0) as [w0|] eqn:He; [|done]. simpl in Hrun.
    apply andb_prop in Hcalm as [Hsafe Hcalm].
    destruct (IH _ _ Hcalm Hrun) as [H1 H2]. by rewrite Hsafe, H1.
Qed.


Lemma filter_path_absent p l :
  p ∉ path <$> l → filter (λ f, path f = p) l = [].
Proof.
  induction l as [|x l IH]; intros Hp; [done|].
  rewrite fmap_cons in Hp. apply not_elem_of_cons in Hp as [Hne Hp].
  rewrite filter_cons_False by done. by apply IH.
Qed.

Lemma count_path_one p l :
  NoDup (path <$> l) → p ∈ path <$> l →
  length (filter (λ f, path f = p) l) = 1%nat.
Proof.
  induction l as [|x l IH]; intros Hnd Hin; simpl in *.
  - by apply elem_of_nil in Hin.
  - apply NoDup_cons in Hnd as [Hx Hnd]. rewrite filter_cons.
    destruct (decide (path x = p)) as [<-|Hne]; simpl.
    + by rewrite filter_path_absent.
    + apply IH; [done|]. apply elem_of_cons in Hin as [->|]; done.
Qed.

Lemma NoDup_delete_lookup {A} (l : list A) i x :
  NoDup l → l !! i = Some x → x ∉ delete i l.
Proof.
  intros Hnd Hx. rewrite delete_take_drop.
  rewrite <- (take_drop_middle l i x Hx) in Hnd.
  apply NoDup_app in Hnd as (_ & Hleft & Hright).
  apply NoDup_cons in Hright as [Hright _].
  intros [Hin|Hin]%elem_of_app; [|done].
  apply (Hleft x Hin). by left.
Qed.

Lemma step_api w e w' : step w e = Some w' → electronAPI w' = electronAPI w.
Proof.
  intros Hstep.
  destruct e as [p|index|index|index|h|h r|s|b]; simpl in Hstep.
  - by injection Hstep as <-.
  - destruct (files w !! index) as [f0|] eqn:Hf0; [|done]. simpl in Hstep.
    case_bool_decide; [|done]. injection Hstep as <-.
    rewrite (begin_run _ _ f0) by done. by destruct (electronAPI w) eqn:E.
  - destruct (files w !! index) as [f0|]; [|done]. simpl in Hstep.
    destruct (url f0); [|done]. destruct (_ && _); [|done].
    by injection Hstep as <-.
  - destruct (files w !! index) as [f0|]; [|done]. by injection Hstep as <-.
  - destruct (pending w !! h) as [u|]; [|done]. by injection Hstep as <-.
  - destruct (pending w !! h) as [u|]; [|done]. injection Hstep as <-.
    unfold run_handler. destruct r.
    + by rewrite resume_resolved.
    + by rewrite resume_rejected.
  - by injection Hstep as <-.
  - by injection Hstep as <-.
Qed.

(** An upload is only ever awaited where [window.electronAPI] is there. *)
Lemma pending_needs_api api evs w h u :
  run (init api) evs = Some w → pending w !! h = Some u → electronAPI w = true.
Proof.
  intros Hrun. revert h u.
  eapply (run_invariant
            (λ w, ∀ h u, pending w !! h = Some u → electronAPI w = true));
    [|done|intros h u Hu; cbn in Hu; by rewrite lookup_empty in Hu].
  clear. intros w e w' Hstep IH h u Hu.
  rewrite (step_api _ _ _ Hstep). pose proof (step_pending _ _ _ Hstep) as Hp.
  destruct e as [p|index|index|index|h'|h' r|s|b];
    try (destruct Hp as [Hp _]; rewrite Hp in Hu; by eauto).
  - destruct Hp as (f0 & _ & _ & Hp). destruct (electronAPI w); [done|].
    destruct Hp as [Hp _]. rewrite Hp in Hu. by eauto.
  - destruct Hp as [Hp _]. rewrite Hp in Hu.
    apply lookup_delete_Some in Hu as [_ Hu]. by eauto.
Qed.

(** C6: adding a path that is in the list returns the list as it is, with
    the existing entry and no duplicate; otherwise a new entry is appended,
    idle and with progress 0; a path submitted twice is in the list once. *)
Theorem add_is_idempotent api evs w p :
  run (init api) evs = Some w →
  ∃ w1 w2,
    step w (FileArrives p) = Some w1 ∧ step w1 (FileArrives p) = Some w2 ∧
    (p ∈ path <$> files w → files w1 = files w) ∧
    (p ∉ path <$> files w →
     files w1 = files w ++ [{| path := p; name := last_segment_or p p; state := Idle;
                               progress := 0; url := None; error := None |}]) ∧
    files w2 = files w1 ∧
    length (filter (λ f, path f = p) (files w2)) = 1%nat.
Proof.
  intros Hrun. eexists _, _. split; [reflexivity|]. split; [reflexivity|].
  cbn. split; [apply addFile_known|]. split; [apply addFile_fresh|].
  assert (addFile p (addFile p (files w)) = addFile p (files w)) as ->.
  { apply addFile_known, addFile_member. }
  split; [done|]. apply count_path_one; [|apply addFile_member].
  apply addFile_NoDup. by eapply reachable_NoDup.
Qed.

(** C2, as the code has it: the file at a position keeps its path; it
    starts uploading only from idle and by a click on its Upload button,
    which is there for idle files only; it never becomes idle again; and
    in a calm run, one where no file is removed at or before a position an
    awaited upload points at, its state only stays, begins or finishes. *)
Theorem transitions_follow_machine api evs w e w' i f i' :
  run (init api) evs = Some w → step w e = Some w' →
  files w !! i = Some f → track e i = Some i' →
  ∃ f', files w' !! i' = Some f' ∧ path f' = path f ∧
    (state f' = Uploading → state f ≠ Uploading →
     state f = Idle ∧ e = ClickUpload i) ∧
    (state f' = Idle → state f = Idle) ∧
    (calm (init api) (evs ++ [e]) = true → legal (state f) (state f')).
Proof.
  intros Hrun Hstep Hf Htr.
  destruct (step_change _ _ _ _ _ _ Hstep Hf Htr) as (f' & Hf' & Hch).
  exists f'. split; [done|].
  split; [by destruct Hch|]. split; [by destruct Hch|]. split; [by destruct Hch|].
  intros Hcalm. destruct (calm_snoc _ _ _ _ Hcalm Hrun) as [Hpre Hsafe].
  assert (live w) as [Hup _ _] by (eapply calm_live; [apply init_live|done..]).
  unfold legal.
  destruct Hch as [| |h u f Hu Hst _|h u r f Hu|h u x f Hu]; simpl; auto.
  - destruct (Hup _ _ Hu) as (f1 & Hf1 & Hst). rewrite Hf in Hf1.
    injection Hf1 as <-. auto.
  - destruct (Hup _ _ Hu) as (f1 & Hf1 & Hst). rewrite Hf in Hf1.
    injection Hf1 as <-. auto.
Qed.

(** C3: progress stays within 0..100; a file that is uploading is at
    most at 90, and one event later it is still uploading with the same
    progress or, when an interval fired, 10 more, or it has finished with
    exactly 100 (success) or exactly 0 (error); the interval of an upload
    adds exactly 10 to its file as long as that is uploading below 90. *)
Theorem progress_in_bounds api evs w :
  run (init api) evs = Some w →
  (∀ f, f ∈ files w →
     0 ≤ progress f ≤ 100 ∧ (state f = Uploading → progress f ≤ 90)) ∧
  (∀ e w' i f i',
    step w e = Some w' → files w !! i = Some f → track e i = Some i' →
    state f = Uploading →
    ∃ f', files w' !! i' = Some f' ∧
      ((state f' = Uploading ∧ progress f ≤ progress f' ≤ 90 ∧
        (progress f' = progress f ∨
         (∃ h, e = IntervalFires h) ∧ progress f' = progress f + 10))
       ∨ (state f' = Success ∧ progress f' = 100)
       ∨ (state f' = Error ∧ progress f' = 0))) ∧
  (∀ h u f,
    pending w !! h = Some u → files w !! fileIndex u = Some f →
    state f = Uploading → progress f < 90 →
    ∃ w' f', step w (IntervalFires h) = Some w' ∧
      files w' !! fileIndex u = Some f' ∧
      state f' = Uploading ∧ progress f' = progress f + 10).
Proof.
  intros Hrun. pose proof (reachable_progress_ok _ _ _ Hrun) as Hok.
  split; [|split].
  3: { intros h u f Hu Hf Hst Hlt. simpl. rewrite Hu. simpl.
       eexists _, _. split; [done|]. cbn. unfold progress_tick.
       rewrite list_lookup_imap, Hf. simpl.
       rewrite !bool_decide_eq_true_2 by done. done. }
  - intros f Hf. eapply Forall_forall in Hok; [|done].
    unfold progress_ok in Hok. destruct (state f); try lia; split; (lia || done).
  - intros e w' i f i' Hstep Hf Htr Hst.
    destruct (step_change _ _ _ _ _ _ Hstep Hf Htr) as (f' & Hf' & Hch).
    exists f'. split; [done|].
    pose proof (Forall_lookup_1 _ _ _ _ Hok Hf) as Hokf.
    pose proof (step_progress_ok _ _ _ Hstep Hok) as Hok'.
    pose proof (Forall_lookup_1 _ _ _ _ Hok' Hf') as Hokf'.
    unfold progress_ok in Hokf, Hokf'. rewrite Hst in Hokf.
    destruct Hch as [| |h u f _ _ Hlt| |]; simpl in *.
    + left. rewrite Hst in *. split; [done|]. split; [lia|]. by left.
    + congruence.
    + left. rewrite Hst in *. split; [done|]. split; [lia|]. right. eauto.
    + right. left. done.
    + right. right. done.
Qed.

(** C1, as the code has it: when a file whose upload is awaited is
    removed, wherever in the list it has come to be, and the upload then
    resolves, nothing is thrown, the list keeps its length and its paths,
    so the removed file does not come back, and the files at other
    positions than the one the upload points at are left alone, while the
    file that is now at that position, if there is one, is marked
    successful with the url; the clipboard is written if auto-copy was on
    and the notification is requested all the same, whenever the url is
    not empty. *)
Theorem late_completion api evs w0 h u i f w1 r w2 :
  run (init api) evs = Some w0 →
  pending w0 !! h = Some u →
  files w0 !! i = Some f → path f = path (file u) →
  step w0 (ClickRemove i) = Some w1 →
  step w1 (UploadSettles h (Resolved r)) = Some w2 →
  (uploadFile_resume h u (Resolved r) w1).1 = Returned () ∧
  length (files w2) = length (files w1) ∧
  path <$> files w2 = path <$> files w1 ∧
  (path (file u) ∉ path <$> files w2) ∧
  (∀ j, j ≠ fileIndex u → files w2 !! j = files w1 !! j) ∧
  (∀ f1, files w1 !! fileIndex u = Some f1 →
     files w2 !! fileIndex u =
       Some {| path := path f1; name := name f1; state := Success; progress := 100;
               url := Some (trim r); error := error f1 |}) ∧
  calls w2 = calls w1
             ++ (if auto_copy u && nonempty r then [ClipboardWriteText (trim r)] else [])
             ++ (if nonempty r then [upload_complete u r] else []).
Proof.
  intros Hrun Hu Hf Hpath Hrm Hset.
  pose proof (pending_needs_api _ _ _ _ _ Hrun Hu) as Hapi.
  rewrite <- (step_api _ _ _ Hrm) in Hapi.
  pose proof (step_files _ _ _ Hrm) as Hfiles1. simpl in Hfiles1.
  pose proof (step_pending _ _ _ Hrm) as [Hp1 _].
  simpl in Hset. rewrite Hp1, Hu in Hset. simpl in Hset.
  injection Hset as <-. unfold run_handler. rewrite resume_resolved. simpl.
  rewrite Hapi. simpl.
  split; [done|]. split; [apply length_imap|].
  rewrite paths_mark_success. split; [done|]. split; [|split; [|split; [|done]]].
  - rewrite Hfiles1, list_fmap_delete, <- Hpath.
    apply NoDup_delete_lookup; [by eapply reachable_NoDup|].
    by rewrite list_lookup_fmap, Hf.
  - intros j Hj. unfold mark_success.
    rewrite list_lookup_imap. destruct (files w1 !! j); [|done]. simpl.
    by rewrite bool_decide_eq_false_2.
  - intros f1 Hf1. unfold mark_success. rewrite list_lookup_imap, Hf1. simpl.
    by rewrite bool_decide_eq_true_2.
Qed.


(** *** The properties on sample runs *)

Lemma add_is_idempotent_witness :
  ∃ w w1 w2,
    run (init true) [FileArrives a_txt] = Some w ∧
    step w (FileArrives b_txt) = Some w1 ∧ step w1 (FileArrives b_txt) = Some w2 ∧
    files w2 = files w1 ∧
    length (filter (λ f, path f = b_txt) (files w2)) = 1%nat.
Proof.
  eexists. 
  destruct (add_is_idempotent true [FileArrives a_txt] _ b_txt eq_refl)
    as (w1 & w2 & H1 & H2 & _ & _ & H5 & H6).
  exists w1, w2. done.
Defined.

Lemma transitions_follow_machine_witness :
  ∃ w w' f f',
    run (init true) [FileArrives a_txt; ClickUpload 0] = Some w ∧
    step w (UploadSettles 0 (Resolved link)) = Some w' ∧
    files w !! 0%nat = Some f ∧ files w' !! 0%nat = Some f' ∧
    path f' = path f ∧ legal (state f) (state f').
Proof.
  eexists _, _, _.
  destruct (transitions_follow_machine true [FileArrives a_txt; ClickUpload 0] _
              (UploadSettles 0 (Resolved link)) _ 0 _ 0 eq_refl eq_refl eq_refl eq_refl)
    as (f' & Hf' & Hpath & _ & _ & Hlegal).
  exists f'. split; [vm_compute; reflexivity|]. split; [vm_compute; reflexivity|]. split; [vm_compute; reflexivity|].
  split; [exact Hf'|]. split; [exact Hpath|]. apply Hlegal. vm_compute. reflexivity.
Defined.

Lemma progress_in_bounds_witness :
  ∃ w w' f f',
    run (init true) [FileArrives a_txt; ClickUpload 0; IntervalFires 0] = Some w ∧
    step w (IntervalFires 0) = Some w' ∧
    files w !! 0%nat = Some f ∧ files w' !! 0%nat = Some f' ∧
    0 ≤ progress f ≤ 90 ∧ state f' = Uploading ∧ progress f' = progress f + 10.
Proof.
  eexists _, _, _.
  destruct (progress_in_bounds true
              [FileArrives a_txt; ClickUpload 0; IntervalFires 0] _ eq_refl)
    as (Hrange & Hmove & _).
  destruct (Hmove (IntervalFires 0) _ 0%nat _ 0%nat eq_refl eq_refl eq_refl eq_refl)
    as (f' & Hf' & Hcases).
  exists f'. split; [vm_compute; reflexivity|]. split; [vm_compute; reflexivity|]. split; [vm_compute; reflexivity|].
  split; [exact Hf'|]. split; [vm_compute; split; discriminate|].
  vm_compute in Hf'. injection Hf' as <-. split; reflexivity.
Defined.

Lemma late_completion_witness :
  ∃ w0 u f w1 w2,
    run (init true) [FileArrives a_txt; FileArrives b_txt; ClickUpload 0; ClickUpload 1;
                     ClickRemove 0] = Some w0 ∧
    pending w0 !! 1%nat = Some u ∧ fileIndex u = 1%nat ∧ path (file u) = b_txt ∧
    files w0 !! 0%nat = Some f ∧ path f = b_txt ∧ state f = Uploading ∧
    step w0 (ClickRemove 0) = Some w1 ∧
    step w1 (UploadSettles 1 (Resolved link)) = Some w2 ∧
    (uploadFile_resume 1 u (Resolved link) w1).1 = Returned () ∧
    (b_txt ∉ path <$> files w2) ∧
    calls w2 = calls w1 ++ [upload_complete u link].
Proof.
  eexists _, _, _, _, _.
  split; [vm_compute; reflexivity|]. split; [vm_compute; reflexivity|].
  split; [vm_compute; reflexivity|]. split; [vm_compute; reflexivity|].
  split; [vm_compute; reflexivity|]. split; [vm_compute; reflexivity|].
  split; [vm_compute; reflexivity|]. split; [vm_compute; reflexivity|].
  split; [vm_compute; reflexivity|].
  destruct (late_completion true
              [FileArrives a_txt; FileArrives b_txt; ClickUpload 0; ClickUpload 1;
               ClickRemove 0]
              _ 1%nat _ 0%nat _ _ link _
              eq_refl eq_refl eq_refl eq_refl eq_refl eq_refl)
    as (Hret & _ & _ & Hgone & _ & _ & Hcalls).
  split; [exact Hret|]. split; [exact Hgone|]. exact Hcalls.
Defined.

Lemma late_completion_counterexample :
  ∃ w0 u f w1 w2,
    run (init true) [FileArrives a_txt; FileArrives b_txt; ClickUpload 0] = Some w0 ∧
    pending w0 !! 0%nat = Some u ∧
    files w0 !! fileIndex u = Some f ∧ path f = path (file u) ∧
    step w0 (ClickRemove (fileIndex u)) = Some w1 ∧
    step w1 (UploadSettles 0 (Resolved link)) = Some w2 ∧
    files w1 = [{| path := b_txt; name := str "b.txt"; state := Idle;
                   progress := 0; url := None; error := None |}] ∧
    files w2 = [{| path := b_txt; name := str "b.txt"; state := Success;
                   progress := 100; url := Some (str "https://0x0.st/abc.txt");
                   error := None |}] ∧
    filter is_notification (calls w1) = [] ∧
    filter is_notification (calls w2) =
      [IpcShowNotification (str "FastDrop - Upload Complete")
         (str "a.txt uploaded successfully! Click to view in app.")
         (str "https://0x0.st/abc.txt")].
Proof.
  eexists _, _, _, _, _. repeat (split; [vm_compute; reflexivity|]). vm_compute. reflexivity.
Qed.

Lemma transitions_follow_machine_counterexample :
  ∃ w w' f f',
    run (init true)
      [FileArrives a_txt; FileArrives b_txt; ClickUpload 1;
       UploadSettles 0 (Rejected (new_Error (str "boom")));
       ClickUpload 0; ClickRemove 0] = Some w ∧
    step w (UploadSettles 1 (Resolved link)) = Some w' ∧
    files w !! 0%nat = Some f ∧
    track (UploadSettles 1 (Resolved link)) 0 = Some 0%nat ∧
    files w' !! 0%nat = Some f' ∧
    path f = b_txt ∧ path f' = b_txt ∧
    state f = Error ∧ state f' = Success ∧
    ¬ legal (state f) (state f').
Proof.
  eexists _, _, _, _. repeat (split; [vm_compute; reflexivity|]).
  unfold legal. simpl. intros [?|[[? _]|[? _]]]; discriminate.
Qed.



End AppFacts.

(** ** Properties of the main process *)

Lemma trimStart_spec s :
  ∃ pre, s = pre ++ trimStart s ∧ Forall (λ c, is_whitespace c = true) pre ∧
         ∀ c, head (trimStart s) = Some c → is_whitespace c = false.
Proof.
  induction s as [|c s (pre & Hs & Hpre & Hhead)]; simpl.
  - exists []. by repeat split.
  - destruct (is_whitespace c) eqn:Hc.
    + exists (c :: pre). split; [by rewrite <- app_comm_cons, <- Hs|].
      split; [by constructor|done].
    + exists []. split; [done|]. split; [constructor|].
      simpl. by intros ? [= <-].
Qed.

Lemma trimEnd_spec s :
  ∃ post, s = trimEnd s ++ post ∧ Forall (λ c, is_whitespace c = true) post ∧
          ∀ c, last (trimEnd s) = Some c → is_whitespace c = false.
Proof.
  unfold trimEnd. destruct (trimStart_spec (reverse s)) as (pre & Hs & Hpre & Hhead).
  exists (reverse pre). split; [|split].
  - rewrite <- reverse_app, <- Hs. by rewrite reverse_involutive.
  - by apply Forall_reverse.
  - intros c. rewrite last_reverse. apply Hhead.
Qed.

Lemma trim_spec s :
  ∃ pre post,
    s = pre ++ trim s ++ post ∧
    Forall (λ c, is_whitespace c = true) pre ∧
    Forall (λ c, is_whitespace c = true) post ∧
    (∀ c, head (trim s) = Some c → is_whitespace c = false) ∧
    (∀ c, last (trim s) = Some c → is_whitespace c = false).
Proof.
  destruct (trimStart_spec s) as (pre & Hs & Hpre & Hhead).
  destruct (trimEnd_spec (trimStart s)) as (post & Ht & Hpost & Hlast).
  exists pre, post. unfold trim. split; [by rewrite <- Ht|].
  split; [done|]. split; [done|]. split; [|done].
  intros c Hc. apply Hhead. rewrite Ht.
  destruct (trimEnd (trimStart s)); [done|]. done.
Qed.

Module MainFacts.
Import Main.

Lemma own_property_set_field key k v fields :
  own_property key (set_field k v fields) =
    if bool_decide (key = k) then Some v else own_property key fields.
Proof.
  induction fields as [|[k0 v0] fields IH]; simpl.
  - repeat case_bool_decide; congruence.
  - repeat (case_bool_decide; simpl); try congruence. 
Qed.


Ltac unfold_monad :=
  unfold existsSync_config, read_config, get_prop, set_prop, when, lift in *;
  unfold try_catch, bind, ret, throw, gets, modify in *; cbn beta in *.

(** C9: the reading handlers never throw and leave the world as it is;
    [get-google-credentials] answers [null], and [get-auto-copy] answers
    [false], when there is no configuration file, when it cannot be read or
    parsed, and when the parsed value lacks a complete credentials record,
    respectively a truthy [autoCopy]. *)
Theorem config_reads_never_fail w :
  (∃ v, get_google_credentials w = (Returned v, w)) ∧
  (∃ v, get_auto_copy w = (Returned v, w)) ∧
  (stored w = undefined →
   get_google_credentials w = (Returned JNull, w) ∧
   get_auto_copy w = (Returned (JBool false), w)) ∧
  (complete (stored w) = false → get_google_credentials w = (Returned JNull, w)) ∧
  (truthy (field (str "autoCopy") (stored w)) = false →
   get_auto_copy w = (Returned (JBool false), w)).
Proof.
  unfold get_google_credentials, get_auto_copy, stored, complete. unfold_monad.
  destruct w as [cp dir [| | |j] uf gid gsec fr cr pr net]; simpl.
  1-3: by eauto 10.
  destruct j as [|b|n|s|items|fields]; simpl.
  1-5: by eauto 10.
  destruct (own_property (str "googleCredentials") fields)
    as [[|b|n|s|items|fields']|]; simpl;
    destruct (own_property (str "autoCopy") fields) as [v|]; simpl;
    repeat split; intros; simplify_eq/=; eauto;
    repeat (case_match; simplify_eq/=; eauto).
Qed.


Lemma JSON_nested_ind (P : JSON → Prop) :
  P JNull → (∀ b, P (JBool b)) → (∀ n, P (JNum n)) → (∀ s, P (JStr s)) →
  (∀ items, Forall P items → P (JArr items)) →
  (∀ fields, Forall (λ kv, P kv.2) fields → P (JObj fields)) →
  ∀ v, P v.
Proof.
  intros Hnull Hbool Hnum Hstr Harr Hobj. fix IH 1.
  intros [|b|n|s|items|fields]; [done..| |].
  - apply Harr. induction items as [|x items IHitems]; constructor; [apply IH|done].
  - apply Hobj. induction fields as [|[k x] fields IHfields]; constructor;
      [apply IH|done].
Qed.

Lemma parse_stringify_plain v : plain v = true → parse_stringify v = v.
Proof.
  induction v as [|b|[text| |negative]|s|items IH|fields IH] using JSON_nested_ind;
    simpl; try done.
  - intros Hitems. f_equal. induction IH as [|x items Hx _ IHitems]; [done|].
    simpl in *. apply andb_true_iff in Hitems as [Hplain Hitems].
    by rewrite Hx, IHitems.
  - intros Hfields. f_equal. induction IH as [|[k x] fields Hx _ IHfields]; [done|].
    simpl in *. apply andb_true_iff in Hfields as [Hplain Hfields].
    by rewrite Hx, IHfields.
Qed.

Lemma own_property_parse_stringify key fields :
  own_property key (map (λ kv, (kv.1, parse_stringify kv.2)) fields)
    = parse_stringify <$> own_property key fields.
Proof.
  induction fields as [|[k x] fields IH]; simpl; [done|]. by case_bool_decide.
Qed.

#[local] Arguments set_field : simpl never.

(** What [save-google-credentials] and [set-auto-copy] leave in the file,
    property by property. *)
Lemma save_frame w clientId clientSecret key :
  key ≠ str "googleCredentials" →
  field key (stored (save_google_credentials clientId clientSecret w).2)
    = parse_stringify <$> field key (stored w).
Proof.
  unfold save_google_credentials, starting_config, stored,
    load_config, write_config, ensureConfigDir.
  unfold_monad.
  destruct w as [cp [|] [| | |j] uf gid gsec fr cr pr net]; simpl;
    try destruct j as [|b|[text| |negative]|s|items|fields]; simpl;
    intros; try done;
    rewrite ?own_property_parse_stringify, ?own_property_set_field; try done;
    by rewrite ?bool_decide_eq_false_2 by congruence.
Qed.

Lemma set_auto_copy_frame w enabled key :
  key ≠ str "autoCopy" →
  field key (stored (set_auto_copy enabled w).2)
    = parse_stringify <$> field key (stored w).
Proof.
  unfold set_auto_copy, starting_config, stored,
    load_config, write_config, ensureConfigDir.
  unfold_monad.
  destruct w as [cp [|] [| | |j] uf gid gsec fr cr pr net]; simpl;
    try destruct j as [|b|[text| |negative]|s|items|fields]; simpl;
    intros; try done;
    rewrite ?own_property_parse_stringify, ?own_property_set_field; try done;
    by rewrite ?bool_decide_eq_false_2 by congruence.
Qed.

(** C10, as the code has it: a writing handler sets its one property and
    writes the whole configuration again: whatever the file held, after
    [save-google-credentials] every property but [googleCredentials], so
    [autoStart] and [autoCopy], and after [set-auto-copy] every property
    but [autoCopy], so [googleCredentials] and [autoStart], reads from the
    file as [JSON.stringify] wrote it, which is as before whenever the
    property held no infinity and no negative zero; and when the handler
    succeeds on a configuration that is an object, the property it sets
    reads as given. *)
Theorem config_writes_frame w clientId clientSecret enabled key :
  (key ≠ str "googleCredentials" →
   field key (stored (save_google_credentials clientId clientSecret w).2)
     = parse_stringify <$> field key (stored w) ∧
   ∀ v, field key (stored w) = Some v → plain v = true →
        field key (stored (save_google_credentials clientId clientSecret w).2)
          = Some v) ∧
  (key ≠ str "autoCopy" →
   field key (stored (set_auto_copy enabled w).2)
     = parse_stringify <$> field key (stored w) ∧
   ∀ v, field key (stored w) = Some v → plain v = true →
        field key (stored (set_auto_copy enabled w).2) = Some v) ∧
  (∀ fields, starting_config w = JObj fields →
     (save_google_credentials clientId clientSecret w).1 = Returned () →
     field (str "googleCredentials")
       (stored (save_google_credentials clientId clientSecret w).2)
       = Some (JObj [(str "clientId", JStr clientId);
                     (str "clientSecret", JStr clientSecret)])) ∧
  (∀ fields, starting_config w = JObj fields →
     (set_auto_copy enabled w).1 = Returned true →
     field (str "autoCopy") (stored (set_auto_copy enabled w).2)
       = Some (JBool enabled)).
Proof.
  split; [|split].
  - intros Hkey. rewrite save_frame by done. split; [done|].
    intros v -> Hplain. simpl. by rewrite parse_stringify_plain.
  - intros Hkey. rewrite set_auto_copy_frame by done. split; [done|].
    intros v -> Hplain. simpl. by rewrite parse_stringify_plain.
  - unfold save_google_credentials, set_auto_copy, starting_config, stored,
      load_config, write_config, ensureConfigDir.
    unfold_monad.
    destruct w as [cp [|] [| | |j] uf gid gsec fr cr pr net]; simpl;
      try destruct j as [|b|n|s|items|fields]; simpl;
      repeat split; try done; intros; simplify_eq/=;
      rewrite ?own_property_parse_stringify, ?own_property_set_field; try done;
      by rewrite ?bool_decide_eq_true_2 by congruence.
Qed.


Lemma env_or_empty_default v : env_or_empty v = Some (JStr (default [] v)).
Proof. by destruct v as [[|c s]|]. Qed.

(** C4: stored credentials come first, the environment is the fallback,
    and without either the upload fails before any call to the network:
    a truthy [googleCredentials] in the configuration gives its [clientId]
    and [clientSecret], whatever the environment holds; otherwise the id
    and the secret are the strings of the two environment variables, the
    empty string for one that is not set; and when the id or the secret so
    resolved is empty, so when both sources are empty,
    [uploadToGoogleDrive] throws the not-configured error with the
    network untouched. *)
Theorem credential_resolution w fileBuffer fileName :
  (truthy (field (str "googleCredentials") (stored w)) = true →
   resolve_credentials w =
     (Returned (field (str "clientId") (field (str "googleCredentials") (stored w)),
                field (str "clientSecret") (field (str "googleCredentials") (stored w))),
      w)) ∧
  (truthy (field (str "googleCredentials") (stored w)) = false →
   resolve_credentials w =
     (Returned (Some (JStr (default [] (GOOGLE_CLIENT_ID w))),
                Some (JStr (default [] (GOOGLE_CLIENT_SECRET w)))), w)) ∧
  (∀ id secret,
     resolve_credentials w = (Returned (id, secret), w) →
     truthy id && truthy secret = false →
     uploadToGoogleDrive fileBuffer fileName w =
       (Threw (new_Error (str "Google Drive upload failed: "
                          ++ toString (new_Error not_configured))), w)) ∧
  (truthy (field (str "googleCredentials") (stored w)) = false →
   unset (GOOGLE_CLIENT_ID w) || unset (GOOGLE_CLIENT_SECRET w) = true →
   uploadToGoogleDrive fileBuffer fileName w =
     (Threw (new_Error (str "Google Drive upload failed: "
                        ++ toString (new_Error not_configured))), w)).
Proof.
  assert (truthy (field (str "googleCredentials") (stored w)) = false →
          resolve_credentials w =
            (Returned (Some (JStr (default [] (GOOGLE_CLIENT_ID w))),
                       Some (JStr (default [] (GOOGLE_CLIENT_SECRET w)))), w)) as Henv.
  { rewrite <- !env_or_empty_default.
    unfold resolve_credentials, stored. unfold_monad.
    destruct w as [cp dir [| | |j] uf gid gsec fr cr pr net]; simpl; try done.
    destruct j as [|b|n|s|items|fields]; simpl; try done.
    by intros ->. }
  assert (∀ id secret,
     resolve_credentials w = (Returned (id, secret), w) →
     truthy id && truthy secret = false →
     uploadToGoogleDrive fileBuffer fileName w =
       (Threw (new_Error (str "Google Drive upload failed: "
                          ++ toString (new_Error not_configured))), w)) as Hfail.
  { intros id secret Hres Hfalsy. unfold uploadToGoogleDrive.
    unfold try_catch at 1. unfold bind at 1. rewrite Hres.
    apply andb_false_iff in Hfalsy as [->| ->]; simpl; by rewrite ?orb_true_r. }
  split; [|split; [done|split; [done|]]].
  - unfold resolve_credentials, stored. unfold_monad.
    destruct w as [cp dir [| | |j] uf gid gsec fr cr pr net]; simpl; try done.
    destruct j as [|b|n|s|items|fields]; simpl; try done.
    destruct (own_property (str "googleCredentials") fields)
      as [[|b|n|s|items|fields']|]; simpl; try done; by intros ->.
  - intros Hstored Hunset. eapply Hfail; [by apply Henv|].
    unfold unset in *.
    destruct (GOOGLE_CLIENT_ID w) as [[|? ?]|], (GOOGLE_CLIENT_SECRET w) as [[|? ?]|];
      simpl in *; try done.
Qed.

(** C7: a response outside 200-299 makes [uploadTo0x0] throw an error
    whose message carries the status and the body; otherwise the result
    is the body trimmed, that is the body without a run of white space at
    each end, neither beginning nor ending with white space; there is one
    call to the network either way. *)
Theorem anonymous_host w fileBuffer fileName response :
  fetch_reply w fileBuffer fileName = Returned response →
  ((status response < 200 ∨ 299 < status response)%N →
   uploadTo0x0 fileBuffer fileName w =
     (Threw (new_Error (str "Upload to 0x0.st failed: " ++ decimal (status response)
                        ++ str " " ++ statusText response ++ str " - " ++ text response)),
      with_call (Fetch0x0 fileBuffer fileName) w)) ∧
  ((200 ≤ status response ≤ 299)%N →
   uploadTo0x0 fileBuffer fileName w =
     (Returned (trim (text response)), with_call (Fetch0x0 fileBuffer fileName) w)) ∧
  ∃ pre post,
    text response = pre ++ trim (text response) ++ post ∧
    Forall (λ c, is_whitespace c = true) pre ∧
    Forall (λ c, is_whitespace c = true) post ∧
    (∀ c, head (trim (text response)) = Some c → is_whitespace c = false) ∧
    (∀ c, last (trim (text response)) = Some c → is_whitespace c = false).
Proof.
  intros Hreply.
  assert (uploadTo0x0 fileBuffer fileName w =
          if negb (ok response)
          then (Threw (new_Error (str "Upload to 0x0.st failed: "
                         ++ decimal (status response) ++ str " "
                         ++ statusText response ++ str " - " ++ text response)),
                with_call (Fetch0x0 fileBuffer fileName) w)
          else (Returned (trim (text response)),
                with_call (Fetch0x0 fileBuffer fileName) w)) as ->.
  { unfold uploadTo0x0, fetch. unfold_monad. simpl. rewrite Hreply.
    by destruct (ok response). }
  unfold ok. split; [|split; [|apply trim_spec]].
  - intros Hout. repeat case_bool_decide; simpl; try done; lia.
  - intros Hin. repeat case_bool_decide; simpl; try done; lia.
Qed.

(** *** The properties on sample worlds *)

Lemma config_reads_never_fail_witness :
  stored (sample Corrupt None None (Returned reply_200)) = undefined ∧
  complete (stored (sample (Parsed settings) None None (Returned reply_200))) = false ∧
  (get_google_credentials (sample Corrupt None None (Returned reply_200))).1
    = Returned JNull ∧
  (get_auto_copy (sample Corrupt None None (Returned reply_200))).1
    = Returned (JBool false) ∧
  (get_google_credentials (sample (Parsed settings) None None (Returned reply_200))).1
    = Returned JNull.
Proof.
  destruct (config_reads_never_fail (sample Corrupt None None (Returned reply_200)))
    as (_ & _ & Hmissing & _).
  destruct (config_reads_never_fail (sample (Parsed settings) None None (Returned reply_200)))
    as (_ & _ & _ & Hpartial & _).
  destruct (Hmissing eq_refl) as [H1 H2].
  split; [reflexivity|]. split; [reflexivity|].
  rewrite H1, H2, (Hpartial eq_refl). repeat split; reflexivity.
Defined.

Lemma credential_resolution_witness :
  truthy (field (str "googleCredentials")
            (stored (sample (Parsed settings) None None (Returned reply_200)))) = false ∧
  unset None || unset None = true ∧
  uploadToGoogleDrive (replicate 10 x00) (str "a.txt")
      (sample (Parsed settings) None None (Returned reply_200))
    = (Threw (new_Error (str "Google Drive upload failed: "
                         ++ toString (new_Error not_configured))),
       sample (Parsed settings) None None (Returned reply_200)) ∧
  (resolve_credentials
     (sample (Parsed settings) (Some (str "env-id")) (Some (str "env-secret"))
        (Returned reply_200))).1
    = Returned (Some (JStr (str "env-id")), Some (JStr (str "env-secret"))) ∧
  (resolve_credentials
     (sample (Parsed credentials_file) (Some (str "env-id")) (Some (str "env-secret"))
        (Returned reply_200))).1
    = Returned (Some (JStr (str "id")), Some (JStr (str "secret"))).
Proof.
  split; [reflexivity|]. split; [reflexivity|]. split; [|split].
  - apply (credential_resolution (sample (Parsed settings) None None (Returned reply_200))
             (replicate 10 x00) (str "a.txt")); reflexivity.
  - destruct (credential_resolution
                (sample (Parsed settings) (Some (str "env-id")) (Some (str "env-secret"))
                   (Returned reply_200)) [] []) as (_ & Henv & _).
    rewrite Henv; reflexivity.
  - destruct (credential_resolution
                (sample (Parsed credentials_file) (Some (str "env-id"))
                   (Some (str "env-secret")) (Returned reply_200)) [] [])
      as (Hstored & _).
    rewrite Hstored; reflexivity.
Defined.

Lemma anonymous_host_witness :
  fetch_reply (sample NoFile None None (Returned reply_200)) (replicate 10 x00) (str "a.txt")
    = Returned reply_200 ∧
  (200 ≤ status reply_200 ≤ 299)%N ∧
  (uploadTo0x0 (replicate 10 x00) (str "a.txt")
     (sample NoFile None None (Returned reply_200))).1
    = Returned (trim (text reply_200)) ∧
  trim (text reply_200) = str "https://0x0.st/abc.txt".
Proof.
  split; [reflexivity|]. split; [vm_compute; split; discriminate|].
  destruct (anonymous_host (sample NoFile None None (Returned reply_200))
              (replicate 10 x00) (str "a.txt") reply_200 eq_refl) as (_ & Hok & _).
  rewrite Hok; [|vm_compute; split; discriminate].
  split; [reflexivity|]. vm_compute. reflexivity.
Defined.

Example save_keeps_settings :
  stored (save_google_credentials (str "id") (str "secret")
            (sample (Parsed settings) None None (Returned reply_200))).2
  = Some (JObj [(str "autoStart", JBool true); (str "autoCopy", JBool true);
                (str "googleCredentials",
                 JObj [(str "clientId", JStr (str "id"));
                       (str "clientSecret", JStr (str "secret"))])]).
Proof. vm_compute. reflexivity. Qed.

Example set_auto_copy_keeps_settings :
  stored (set_auto_copy false
            (sample (Parsed settings) None None (Returned reply_200))).2
  = Some (JObj [(str "autoStart", JBool true); (str "autoCopy", JBool false)]).
Proof. vm_compute. reflexivity. Qed.

Example save_on_null_fails :
  (save_google_credentials (str "id") (str "secret")
     (sample (Parsed JNull) None None (Returned reply_200))).1
  = Threw (new_Error (str "Failed to save credentials: TypeError: Cannot set properties of null (setting 'googleCredentials')")).
Proof. vm_compute. reflexivity. Qed.

Example save_on_directory_fails :
  (save_google_credentials (str "id") (str "secret")
     (sample IsDirectory None None (Returned reply_200))).1
  = Threw (new_Error (str "Failed to save credentials: Error: EISDIR: illegal operation on a directory, open '/Users/me/.fastdrop/config.json'")).
Proof. vm_compute. reflexivity. Qed.

Lemma config_writes_frame_witness :
  str "autoStart" ≠ str "autoCopy" ∧
  field (str "autoStart")
    (stored (sample (Parsed settings) None None (Returned reply_200)))
    = Some (JBool true) ∧
  plain (JBool true) = true ∧
  field (str "autoStart")
    (stored (set_auto_copy false
               (sample (Parsed settings) None None (Returned reply_200))).2)
    = Some (JBool true).
Proof.
  assert (str "autoStart" ≠ str "autoCopy") as Hkey by (vm_compute; discriminate).
  split; [exact Hkey|]. split; [reflexivity|]. split; [reflexivity|].
  destruct (config_writes_frame (sample (Parsed settings) None None (Returned reply_200))
              [] [] false (str "autoStart")) as (_ & Hcopy & _).
  destruct (Hcopy Hkey) as [_ Hplain]. apply Hplain; reflexivity.
Defined.

Lemma config_writes_frame_counterexample :
  ∃ w w',
    w = sample (Parsed (JObj [(str "autoStart", JNum (Infinity false))]))
          None None (Returned reply_200) ∧
    set_auto_copy true w = (Returned true, w') ∧
    str "autoStart" ≠ str "autoCopy" ∧
    field (str "autoStart") (stored w) = Some (JNum (Infinity false)) ∧
    field (str "autoStart") (stored w') = Some JNull ∧
    field (str "autoStart") (stored w') ≠ field (str "autoStart") (stored w).
Proof.
  eexists _, _. split; [reflexivity|]. split; [vm_compute; reflexivity|].
  split; [vm_compute; discriminate|]. split; [vm_compute; reflexivity|].
  split; [vm_compute; reflexivity|]. vm_compute. discriminate.
Qed.

Example save_loses_infinity :
  stored (save_google_credentials (str "id") (str "secret")
            (sample (Parsed (JObj [(str "autoCopy", JNum (Infinity false));
                                   (str "autoStart", JNum NegativeZero)]))
               None None (Returned reply_200))).2
  = Some (JObj [(str "autoCopy", JNull); (str "autoStart", JNum (Finite (str "0")));
                (str "googleCredentials",
                 JObj [(str "clientId", JStr (str "id"));
                       (str "clientSecret", JStr (str "secret"))])]).
Proof. vm_compute. reflexivity. Qed.

Example save_on_number_fails :
  (save_google_credentials (str "id") (str "secret")
     (sample (Parsed (JNum (Finite (str "5")))) None None (Returned reply_200))).1
  = Threw (new_Error (str "Failed to save credentials: TypeError: Cannot create property 'googleCredentials' on number '5'")).
Proof. vm_compute. reflexivity. Qed.

End MainFacts.

(** C5, as the code has it: what a provider throws reaches the renderer
    wrapped, not as it is: ['upload-file'] throws a new error whose
    message is ["Upload failed: "] followed by the text of the provider's
    error, and makes no further call; the message of the error the
    renderer catches becomes the [error] of the file, which goes to the
    error state, and the renderer calls nothing again. *)
Theorem error_propagation (w : Main.World) filePath service fileBuffer e w'
    (aw : App.World) h u n m aw' :
  Main.userFiles w filePath = Returned fileBuffer →
  Main.provider service fileBuffer (last_segment_or filePath (str "file")) w
    = (Threw e, w') →
  App.pending aw !! h = Some u →
  App.step aw (App.UploadSettles h (App.Rejected (ErrorObject n m))) = Some aw' →
  Main.upload_file filePath service w
    = (Threw (new_Error (str "Upload failed: " ++ toString e)), w') ∧
  message_of (new_Error (str "Upload failed: " ++ toString e)) ≠ message_of e ∧
  (∀ f, App.files aw !! App.fileIndex u = Some f →
     ∃ f', App.files aw' !! App.fileIndex u = Some f' ∧
           App.state f' = App.Error ∧ App.error f' = Some m) ∧
  App.calls aw' = App.calls aw ∧
  App.pending aw' !! h = None.
Proof.
  intros Hfile Hprov Hu Hstep. split; [|split].
  - unfold Main.upload_file, try_catch, bind, gets, Main.lift. simpl.
    rewrite Hfile. destruct service; simpl in *; by rewrite Hprov.
  - unfold new_Error at 1. cbn [message_of]. intros Heq.
    apply (f_equal length) in Heq. rewrite length_app in Heq.
    assert (length (message_of e) ≤ length (toString e))%nat as Hle.
    { destruct e as [n0 m0|t]; cbn [message_of toString length]; [|lia].
      destruct n0, m0; cbn [nonempty negb length]; rewrite ?length_app;
        cbn [length]; lia. }
    assert (0 < length (str "Upload failed: "))%nat by (vm_compute; lia). lia.
  - simpl in Hstep. rewrite Hu in Hstep. injection Hstep as <-.
    split; [|split; [done|apply lookup_delete_eq]].
    intros f Hf. cbn. unfold App.mark_error.
    rewrite list_lookup_imap, Hf. simpl.
    rewrite bool_decide_eq_true_2 by done. eauto.
Qed.

Lemma error_propagation_witness :
  ∃ e w' u aw',
    Main.provider App.zero_x_zero (replicate 10 x00) (str "a.txt")
        (Main.sample Main.NoFile None None (Returned Main.reply_500)) = (Threw e, w') ∧
    App.pending (App.after [App.FileArrives App.a_txt; App.ClickUpload 0]) !! 0%nat
      = Some u ∧
    App.step (App.after [App.FileArrives App.a_txt; App.ClickUpload 0])
      (App.UploadSettles 0 (App.Rejected (ErrorObject (str "Error") (str "boom"))))
      = Some aw' ∧
    Main.upload_file (str "/tmp/a.txt") App.zero_x_zero
        (Main.sample Main.NoFile None None (Returned Main.reply_500))
      = (Threw (new_Error (str "Upload failed: " ++ toString e)), w') ∧
    App.calls aw' = App.calls (App.after [App.FileArrives App.a_txt; App.ClickUpload 0]).
Proof.
  eexists _, _, _, _.
  split; [vm_compute; reflexivity|]. split; [vm_compute; reflexivity|].
  split; [vm_compute; reflexivity|].
  destruct (error_propagation
              (Main.sample Main.NoFile None None (Returned Main.reply_500))
              (str "/tmp/a.txt") App.zero_x_zero (replicate 10 x00) _ _
              (App.after [App.FileArrives App.a_txt; App.ClickUpload 0])
              0%nat _ (str "Error") (str "boom") _
              eq_refl eq_refl eq_refl eq_refl) as (Hwrap & _ & _ & Hcalls & _).
  split; [exact Hwrap|exact Hcalls].
Defined.

Lemma error_propagation_counterexample :
  ∃ e e',
    (Main.provider App.zero_x_zero (replicate 10 x00) (str "a.txt")
       (Main.sample Main.NoFile None None (Returned Main.reply_500))).1 = Threw e ∧
    (Main.upload_file (str "/tmp/a.txt") App.zero_x_zero
       (Main.sample Main.NoFile None None (Returned Main.reply_500))).1 = Threw e' ∧
    message_of e = str "Upload to 0x0.st failed: 500 Internal Server Error - oops" ∧
    message_of e' =
      str "Upload failed: Error: Upload to 0x0.st failed: 500 Internal Server Error - oops" ∧
    message_of e' ≠ message_of e.
Proof.
  eexists _, _. repeat (split; [vm_compute; reflexivity|]).
  vm_compute. discriminate.
Qed.

(** ** More of the main process *)

Lemma split_last sep s :
  ∃ seg pre,
    last (split sep s) = Some seg ∧ (sep ∉ seg) ∧ s = pre ++ seg ∧
    ((pre = [] ∧ split sep s = [seg])
     ∨ (last pre = Some sep ∧ (2 ≤ length (split sep s))%nat)).
Proof.
  induction s as [|c s (seg & pre & Hlast & Hseg & Hs & Hpre)]; simpl.
  - exists [], []. split; [done|]. split; [apply not_elem_of_nil|]. split; [done|].
    by left.
  - case_bool_decide as Hc.
    + subst c. exists seg, (sep :: pre).
      assert (split sep s ≠ []) as Hne by (intros Heq; by rewrite Heq in Hlast).
      split. { destruct (split sep s); [done|]. exact Hlast. }
      split; [done|]. split; [by rewrite Hs at 1|]. right. split.
      * destruct Hpre as [[-> _]|[Hp _]]; [done|].
        destruct pre; [done|]. exact Hp.
      * destruct (split sep s); [done|]. simpl. lia.
    + destruct Hpre as [[-> Hsplit]|[Hp Hlen]].
      * rewrite Hsplit. exists (c :: seg), []. split; [done|].
        split; [|split; [by rewrite Hs|by left]].
        apply not_elem_of_cons. split; [congruence|done].
      * destruct (split sep s) as [|seg0 [|seg1 rest]] eqn:Hsplit;
          [simpl in Hlen; lia..|].
        exists seg, (c :: pre). split; [exact Hlast|]. split; [done|].
        split; [by rewrite Hs at 1|]. right. split; [|simpl; lia].
        destruct pre; [done|]. exact Hp.
Qed.

Lemma last_segment_or_cases s dflt :
  (last_segment_or s dflt = dflt)
  ∨ (nonempty (last_segment_or s dflt) = true ∧ (slash ∉ last_segment_or s dflt) ∧
     ((s = last_segment_or s dflt)
      ∨ (∃ pre, s = pre ++ last_segment_or s dflt ∧ last pre = Some slash))).
Proof.
  unfold last_segment_or.
  destruct (split_last slash s) as (seg & pre & -> & Hseg & Hs & Hpre).
  destruct (nonempty seg) eqn:Hne; [|by left].
  right. split; [done|]. split; [done|].
  destruct Hpre as [[-> _]|[Hp _]]; [by left|]. right. by exists pre.
Qed.

Lemma split_segments sep pre seg :
  sep ∉ seg → ∃ segs, split sep (pre ++ sep :: seg) = segs ++ [seg] ∧ segs ≠ [].
Proof.
  intros Hseg.
  assert (split sep seg = [seg]) as Hlast.
  { induction seg as [|c seg IH]; simpl; [done|].
    apply not_elem_of_cons in Hseg as [Hc Hseg].
    rewrite bool_decide_eq_false_2 by done. by rewrite IH. }
  induction pre as [|c pre (segs & IH & Hne)]; simpl.
  - rewrite bool_decide_eq_true_2 by done. exists [[]]. by rewrite Hlast.
  - rewrite IH. destruct segs as [|s0 segs]; [done|].
    case_bool_decide; [by exists ([] :: s0 :: segs)|by exists ((c :: s0) :: segs)].
Qed.

(** A path with a slash is named by what follows its last slash, or by
    the default when nothing follows; a path without one by itself, or by
    the default when it is empty. *)
Lemma last_segment_or_slash dir seg dflt :
  slash ∉ seg →
  last_segment_or (dir ++ slash :: seg) dflt = if nonempty seg then seg else dflt.
Proof.
  intros Hseg. unfold last_segment_or.
  destruct (split_segments slash dir seg Hseg) as (segs & -> & _).
  by rewrite last_snoc.
Qed.

Lemma last_segment_or_no_slash s dflt :
  slash ∉ s → last_segment_or s dflt = if nonempty s then s else dflt.
Proof.
  intros Hs. unfold last_segment_or.
  destruct (split_last slash s) as (seg & pre & -> & _ & Heq & [[-> _]|[Hpre _]]).
  - by rewrite Heq.
  - exfalso. apply Hs. rewrite Heq. apply elem_of_app. left.
    by apply last_Some_elem_of.
Qed.

Module MainMore.
Import Main MainFacts.

Lemma resolve_credentials_returns w :
  ∃ id secret, resolve_credentials w = (Returned (id, secret), w).
Proof.
  unfold resolve_credentials. unfold_monad.
  destruct w as [cp dir [| | |j] uf gid gsec fr cr pr net]; simpl; eauto.
  destruct j as [|b|n|s|items|fields]; simpl; eauto;
    try (destruct b; simpl; eauto);
    try (destruct (is_zero n); simpl; eauto);
    try (destruct (nonempty s); simpl; eauto).
  destruct (own_property (str "googleCredentials") fields)
    as [[|b|n|s|items|fields']|]; simpl; eauto;
    try (destruct b; simpl; eauto);
    try (destruct (is_zero n); simpl; eauto);
    try (destruct (nonempty s); simpl; eauto).
Qed.

(** What [uploadToGoogleDrive] does once the credentials are there. *)
Lemma drive_after_credentials w fileBuffer fileName id secret :
  resolve_credentials w = (Returned (id, secret), w) →
  truthy id = true → truthy secret = true →
  uploadToGoogleDrive fileBuffer fileName w =
    let w1 := with_call (DriveFilesCreate id secret fileName fileBuffer) w in
    match files_create_reply w fileName fileBuffer with
    | Threw e =>
        (Threw (new_Error (str "Google Drive upload failed: " ++ toString e)), w1)
    | Returned (Some fileId) =>
        if nonempty fileId then
          let w2 := with_call (DrivePermissionsCreate fileId) w1 in
          match permissions_create_reply w fileId with
          | Threw e =>
              (Threw (new_Error (str "Google Drive upload failed: " ++ toString e)), w2)
          | Returned _ =>
              (Returned (str "https://drive.google.com/file/d/" ++ fileId ++ str "/view"), w2)
          end
        else (Threw (new_Error (str "Google Drive upload failed: "
               ++ toString (new_Error (str "Failed to upload file to Google Drive")))), w1)
    | Returned None =>
        (Threw (new_Error (str "Google Drive upload failed: "
           ++ toString (new_Error (str "Failed to upload file to Google Drive")))), w1)
    end.
Proof.
  intros Hres Hid Hsec. unfold uploadToGoogleDrive.
  unfold try_catch at 1. unfold bind at 1. rewrite Hres, Hid, Hsec.
  unfold drive_files_create, drive_permissions_create. unfold_monad. cbn.
  destruct (files_create_reply w fileName fileBuffer) as [[fileId|]|e]; cbn; try done.
  destruct (nonempty fileId); cbn; [|done].
  by destruct (permissions_create_reply w fileId) as [[]|e].
Qed.

(** X1: with credentials resolved and both calls accepted, the upload
    makes the creation call with those credentials, then the permission
    call for the new file, in that order and nothing else, and returns the
    view link of that file. *)
Theorem drive_uploads_then_shares w fileBuffer fileName id secret fileId :
  resolve_credentials w = (Returned (id, secret), w) →
  truthy id = true → truthy secret = true →
  files_create_reply w fileName fileBuffer = Returned (Some fileId) →
  nonempty fileId = true →
  permissions_create_reply w fileId = Returned () →
  ∃ w', uploadToGoogleDrive fileBuffer fileName w =
          (Returned (str "https://drive.google.com/file/d/" ++ fileId ++ str "/view"), w') ∧
        network w' = network w ++ [DriveFilesCreate id secret fileName fileBuffer;
                                   DrivePermissionsCreate fileId] ∧
        configFile w' = configFile w.
Proof.
  intros Hres Hid Hsec Hcreate Hfile Hperm.
  rewrite (drive_after_credentials _ _ _ id secret) by done.
  cbn zeta. rewrite Hcreate, Hfile, Hperm. eexists. split; [done|]. simpl.
  by rewrite <- app_assoc.
Qed.

(** X2: when the file is created and the permission call fails, the
    upload fails with that error under the Google Drive prefix, after
    exactly one creation call and one permission call: nothing is retried
    and nothing is undone. *)
Theorem drive_permission_failure w fileBuffer fileName id secret fileId e :
  resolve_credentials w = (Returned (id, secret), w) →
  truthy id = true → truthy secret = true →
  files_create_reply w fileName fileBuffer = Returned (Some fileId) →
  nonempty fileId = true →
  permissions_create_reply w fileId = Threw e →
  ∃ w', uploadToGoogleDrive fileBuffer fileName w =
          (Threw (new_Error (str "Google Drive upload failed: " ++ toString e)), w') ∧
        network w' = network w ++ [DriveFilesCreate id secret fileName fileBuffer;
                                   DrivePermissionsCreate fileId].
Proof.
  intros Hres Hid Hsec Hcreate Hfile Hperm.
  rewrite (drive_after_credentials _ _ _ id secret) by done.
  cbn zeta. rewrite Hcreate, Hfile, Hperm. eexists. split; [done|]. simpl.
  by rewrite <- app_assoc.
Qed.

(** X3: whatever the world, [uploadToGoogleDrive] leaves the
    configuration alone and makes no call, or the creation call alone, or
    the creation call followed by one permission call; it returns only in
    the last case, and then the view link of a file id that is not empty. *)
Theorem drive_calls_shape w fileBuffer fileName :
  ∃ calls,
    network (uploadToGoogleDrive fileBuffer fileName w).2 = network w ++ calls ∧
    configFile (uploadToGoogleDrive fileBuffer fileName w).2 = configFile w ∧
    (calls = []
     ∨ (∃ id secret, calls = [DriveFilesCreate id secret fileName fileBuffer])
     ∨ (∃ id secret fileId,
          calls = [DriveFilesCreate id secret fileName fileBuffer;
                   DrivePermissionsCreate fileId])) ∧
    (∀ link, (uploadToGoogleDrive fileBuffer fileName w).1 = Returned link →
       ∃ id secret fileId,
         calls = [DriveFilesCreate id secret fileName fileBuffer;
                  DrivePermissionsCreate fileId] ∧
         nonempty fileId = true ∧
         link = str "https://drive.google.com/file/d/" ++ fileId ++ str "/view").
Proof.
  destruct (resolve_credentials_returns w) as (id & secret & Hres).
  destruct (truthy id && truthy secret) eqn:Hboth.
  - apply andb_prop in Hboth as [Hid Hsec].
    rewrite (drive_after_credentials _ _ _ id secret) by done. cbn zeta.
    destruct (files_create_reply w fileName fileBuffer) as [[fileId|]|e]; cbn.
    + destruct (nonempty fileId) eqn:Hfile.
      * destruct (permissions_create_reply w fileId) as [[]|e]; cbn;
          eexists; rewrite <- app_assoc; (split; [reflexivity|]); (split; [done|]);
          (split; [eauto 10|]); [|done].
        intros link [= <-]. eauto 10.
      * eexists. split; [reflexivity|]. split; [done|]. split; [eauto 10|]. done.
    + eexists. split; [reflexivity|]. split; [done|]. split; [eauto 10|]. done.
    + eexists. split; [reflexivity|]. split; [done|]. split; [eauto 10|]. done.
  - assert (uploadToGoogleDrive fileBuffer fileName w =
            (Threw (new_Error (str "Google Drive upload failed: "
                               ++ toString (new_Error not_configured))), w)) as ->.
    { unfold uploadToGoogleDrive. unfold try_catch at 1. unfold bind at 1.
      rewrite Hres.
      apply andb_false_iff in Hboth as [->| ->]; simpl; by rewrite ?orb_true_r. }
    exists []. cbn. rewrite app_nil_r. split; [done|]. split; [done|].
    split; [by left|done].
Qed.

Lemma upload_file_run w filePath service fileBuffer :
  userFiles w filePath = Returned fileBuffer →
  upload_file filePath service w =
    match provider service fileBuffer (last_segment_or filePath (str "file")) w with
    | (Returned link, w') => (Returned link, w')
    | (Threw e, w') => (Threw (new_Error (str "Upload failed: " ++ toString e)), w')
    end.
Proof.
  intros Hfile. unfold upload_file, try_catch, bind, gets, lift. simpl.
  rewrite Hfile. by destruct service.
Qed.

Lemma uploadTo0x0_network w fileBuffer fileName :
  network (uploadTo0x0 fileBuffer fileName w).2
    = network w ++ [Fetch0x0 fileBuffer fileName].
Proof.
  unfold uploadTo0x0, fetch, bind, modify, gets, lift. cbn.
  destruct (fetch_reply w fileBuffer fileName) as [r|e]; cbn; [|done].
  by destruct (negb (ok r)).
Qed.

(** X4: when the file of the user cannot be read, ['upload-file'] fails
    with that error under its prefix and nothing is sent: the world, its
    network log included, is as before. *)
Theorem upload_of_unreadable_file w filePath service e :
  userFiles w filePath = Threw e →
  upload_file filePath service w =
    (Threw (new_Error (str "Upload failed: " ++ toString e)), w).
Proof.
  intros Hfile. unfold upload_file, try_catch, bind, gets, lift. cbn.
  by rewrite Hfile.
Qed.

(** X5: the file name ['upload-file'] hands to 0x0.st is the part of the
    path after its last slash, the whole path when it has no slash, and
    ["file"] when that would be empty; so it is never empty and has no
    slash in it; and that upload makes one call, with the bytes read. *)
Theorem uploaded_file_name w filePath fileBuffer :
  userFiles w filePath = Returned fileBuffer →
  ∃ fileName,
    network (upload_file filePath App.zero_x_zero w).2
      = network w ++ [Fetch0x0 fileBuffer fileName] ∧
    nonempty fileName = true ∧ (slash ∉ fileName) ∧
    (∀ dir seg, filePath = dir ++ slash :: seg → slash ∉ seg →
       fileName = if nonempty seg then seg else str "file") ∧
    (slash ∉ filePath →
       fileName = if nonempty filePath then filePath else str "file").
Proof.
  intros Hfile. exists (last_segment_or filePath (str "file")). split.
  { rewrite (upload_file_run _ _ _ fileBuffer) by done. simpl.
    rewrite <- uploadTo0x0_network.
    by destruct (uploadTo0x0 _ _ w) as [[link|e] w']. }
  split; [|split; [|split]].
  - destruct (last_segment_or_cases filePath (str "file")) as [->|(Hne & _)]; done.
  - destruct (last_segment_or_cases filePath (str "file")) as [->|(_ & Hslash & _)];
      [|done].
    vm_compute. intros H. repeat (apply elem_of_cons in H as [H|H]; [discriminate|]).
    by apply elem_of_nil in H.
  - intros dir seg -> Hseg. by apply last_segment_or_slash.
  - apply last_segment_or_no_slash.
Qed.


#[local] Arguments set_field : simpl never.

Ltac config_cases w :=
  unfold save_google_credentials, set_auto_copy, get_google_credentials,
    get_auto_copy, resolve_credentials, starting_config, stored, refuses_write,
    load_config, write_config, ensureConfigDir in *;
  unfold_monad;
  destruct w as [? [|] [| | |[|?|?|?|?|?]] ? ? ? ? ? ? ?]; simpl in *.

(** X6: credentials that are saved are the credentials that are read:
    when both strings are non-empty and the configuration is an object, or
    there is none yet, or it is corrupt, [save-google-credentials] returns
    and [get-google-credentials] then answers exactly the two strings. *)
Theorem saved_credentials_are_read w clientId clientSecret fields :
  nonempty clientId = true → nonempty clientSecret = true →
  configFile w ≠ IsDirectory → starting_config w = JObj fields →
  ∃ w', save_google_credentials clientId clientSecret w = (Returned (), w') ∧
        get_google_credentials w' =
          (Returned (JObj [(str "clientId", JStr clientId);
                           (str "clientSecret", JStr clientSecret)]), w').
Proof.
  intros Hid Hsec Hdir Hobj. config_cases w; try done; simplify_eq;
    (eexists; split; [reflexivity|]); simpl;
    rewrite ?own_property_parse_stringify, ?own_property_set_field, ?bool_decide_eq_true_2 by done; simpl;
    by rewrite ?Hid, ?Hsec.
Qed.


Lemma set_auto_copy_answer w enabled :
  (set_auto_copy enabled w).1 = Returned (negb (refuses_write w)).
Proof. config_cases w; done. Qed.

Lemma set_auto_copy_then_get w enabled fields :
  configFile w ≠ IsDirectory → starting_config w = JObj fields →
  (get_auto_copy (set_auto_copy enabled w).2).1 = Returned (JBool enabled).
Proof.
  intros Hdir Hobj. config_cases w; try done; simplify_eq; simpl;
    rewrite ?own_property_parse_stringify, ?own_property_set_field, ?bool_decide_eq_true_2 by done; simpl;
    by destruct enabled.
Qed.

(** X7: the auto-copy setting that is set is the one that is read: when
    the configuration is an object, or there is none yet, or it is
    corrupt, [set-auto-copy] answers [true] and [get-auto-copy] then
    answers the value given. *)
Theorem set_auto_copy_is_read w enabled fields :
  configFile w ≠ IsDirectory → starting_config w = JObj fields →
  ∃ w', set_auto_copy enabled w = (Returned true, w') ∧
        get_auto_copy w' = (Returned (JBool enabled), w').
Proof.
  intros Hdir Hobj. config_cases w; try done; simplify_eq;
    (eexists; split; [reflexivity|]); simpl;
    rewrite ?own_property_parse_stringify, ?own_property_set_field, ?bool_decide_eq_true_2 by done; simpl;
    by destruct enabled.
Qed.

(** X8: the writing handlers fail exactly when the configuration cannot
    be written, that is when the path is a directory or the file parses to
    [null] or to a primitive: then, and only then, [set-auto-copy] answers
    [false] and [save-google-credentials] throws, under its prefix. *)
Theorem writes_fail_when_refused w clientId clientSecret enabled :
  ((set_auto_copy enabled w).1 = Returned (negb (refuses_write w))) ∧
  (refuses_write w = false →
   (save_google_credentials clientId clientSecret w).1 = Returned ()) ∧
  (refuses_write w = true →
   ∃ text, (save_google_credentials clientId clientSecret w).1 =
             Threw (new_Error (str "Failed to save credentials: " ++ text))).
Proof.
  config_cases w; repeat split; intros; try done; eexists; reflexivity.
Qed.

(** X9: a configuration that parses to an array takes the write without
    keeping it: [set-auto-copy] answers [true] and
    [save-google-credentials] returns, the file holds the array again as
    [JSON.stringify] wrote it, with the very same items when none holds an
    infinity or a negative zero, and [get-auto-copy] answers [false] and
    [get-google-credentials] [null] afterwards. *)
Theorem array_configuration_forgets w items clientId clientSecret enabled :
  configFile w = Parsed (JArr items) →
  (∃ w', set_auto_copy enabled w = (Returned true, w') ∧
         stored w' = Some (JArr (map parse_stringify items)) ∧
         (plain (JArr items) = true → stored w' = Some (JArr items)) ∧
         get_auto_copy w' = (Returned (JBool false), w')) ∧
  (∃ w', save_google_credentials clientId clientSecret w = (Returned (), w') ∧
         stored w' = Some (JArr (map parse_stringify items)) ∧
         (plain (JArr items) = true → stored w' = Some (JArr items)) ∧
         get_google_credentials w' = (Returned JNull, w')).
Proof.
  intros Hcfg.
  assert (plain (JArr items) = true → JArr (map parse_stringify items) = JArr items)
    as Hplain by apply (parse_stringify_plain (JArr items)).
  config_cases w; simplify_eq; split; eexists;
    (split; [reflexivity|]); (split; [done|]); (split; [|done]);
    intros Hp; f_equal; by apply Hplain.
Qed.

(** X10: once credentials are saved, an upload to Google Drive uses them
    and not the environment: with both strings non-empty and a
    configuration that is an object, absent or corrupt, the first call
    after [save-google-credentials] is the creation call with the saved
    id and secret. *)
Theorem saved_credentials_are_used w clientId clientSecret fields fileBuffer fileName :
  nonempty clientId = true → nonempty clientSecret = true →
  configFile w ≠ IsDirectory → starting_config w = JObj fields →
  ∃ w' rest,
    save_google_credentials clientId clientSecret w = (Returned (), w') ∧
    network (uploadToGoogleDrive fileBuffer fileName w').2 =
      network w' ++ DriveFilesCreate (Some (JStr clientId)) (Some (JStr clientSecret))
                      fileName fileBuffer :: rest.
Proof.
  intros Hid Hsec Hdir Hobj.
  assert (∃ w', save_google_credentials clientId clientSecret w = (Returned (), w') ∧
            resolve_credentials w' =
              (Returned (Some (JStr clientId), Some (JStr clientSecret)), w'))
    as (w' & Hsave & Hres).
  { config_cases w; try done; simplify_eq;
      (eexists; split; [reflexivity|]); simpl;
      by rewrite ?own_property_parse_stringify, ?own_property_set_field, ?bool_decide_eq_true_2 by done. }
  exists w'. rewrite (drive_after_credentials _ _ _ _ _ Hres) by done. cbn zeta.
  destruct (files_create_reply w' fileName fileBuffer) as [[fileId|]|e]; cbn.
  - destruct (nonempty fileId).
    + destruct (permissions_create_reply w' fileId) as [[]|e]; cbn;
        eexists; (split; [done|]); by rewrite <- app_assoc.
    + by eexists.
  - by eexists.
  - by eexists.
Qed.

Ltac system_cases s :=
  unfold set_auto_start, get_auto_start, setAutoStart, getAutoStart, in_world,
    starting_config, stored, refuses_write,
    load_config, write_config, ensureConfigDir in *;
  unfold_monad;
  destruct s as [[? [|] [| | |[|?|?|?|?|?]] ? ? ? ? ? ? ?] ?]; simpl in *.

Lemma get_auto_start_run s :
  get_auto_start s = (Returned (openAtLogin s), s).
Proof.
  system_cases s; try done;
    match goal with
    | |- context [own_property ?k ?f] => destruct (own_property k f) as [[|[]|?|?|?|?]|]
    end; simpl; try done;
    repeat case_match; done.
Qed.

(** X11: [get-auto-start] answers the login item setting of the system
    and leaves everything as it is, whatever the configuration file holds,
    also when that cannot be read or parsed or has another [autoStart]. *)
Theorem get_auto_start_is_system_setting s :
  get_auto_start s = (Returned (openAtLogin s), s).
Proof. apply get_auto_start_run. Qed.

(** X12: [set-auto-start] changes the login item first and the
    configuration second: the login item holds the value given and
    [get-auto-start] answers it afterwards in every case, while the handler
    answers [false], with the configuration file untouched, exactly when
    the configuration cannot be written; the other properties of the
    configuration read as [JSON.stringify] wrote them, which is as before
    for a property that held no infinity and no negative zero. *)
Theorem set_auto_start_writes_twice s enabled key :
  (set_auto_start enabled s).1 = Returned (negb (refuses_write (world s))) ∧
  openAtLogin (set_auto_start enabled s).2 = enabled ∧
  (get_auto_start (set_auto_start enabled s).2).1 = Returned enabled ∧
  (refuses_write (world s) = true →
   configFile (world (set_auto_start enabled s).2) = configFile (world s)) ∧
  (key ≠ str "autoStart" →
   field key (stored (world (set_auto_start enabled s).2))
     = parse_stringify <$> field key (stored (world s)) ∧
   ∀ v, field key (stored (world s)) = Some v → plain v = true →
        field key (stored (world (set_auto_start enabled s).2)) = Some v).
Proof.
  split; [|split; [|split; [|split]]].
  - system_cases s; done.
  - system_cases s; done.
  - rewrite get_auto_start_run. simpl.
    f_equal. system_cases s; done.
  - system_cases s; done.
  - intros Hkey.
    assert (field key (stored (world (set_auto_start enabled s).2))
            = parse_stringify <$> field key (stored (world s))) as ->.
    { system_cases s; try done;
        rewrite ?own_property_parse_stringify, ?own_property_set_field; try done;
        by rewrite bool_decide_eq_false_2 by congruence. }
    split; [done|]. intros v -> Hplain. simpl. by rewrite parse_stringify_plain.
Qed.

Lemma set_auto_start_writes_twice_witness :
  str "autoCopy" ≠ str "autoStart" ∧
  field (str "autoCopy")
    (stored (world (set_auto_start false
       {| world := sample (Parsed settings) None None (Returned reply_200);
          openAtLogin := true |}).2))
    = Some (JBool true) ∧
  field (str "autoStart")
    (stored (world (set_auto_start false
       {| world := sample (Parsed settings) None None (Returned reply_200);
          openAtLogin := true |}).2))
    = Some (JBool false) ∧
  openAtLogin (set_auto_start false
       {| world := sample (Parsed settings) None None (Returned reply_200);
          openAtLogin := true |}).2 = false.
Proof.
  assert (str "autoCopy" ≠ str "autoStart") as Hkey by (vm_compute; discriminate).
  split; [exact Hkey|].
  destruct (set_auto_start_writes_twice
              {| world := sample (Parsed settings) None None (Returned reply_200);
                 openAtLogin := true |} false (str "autoCopy"))
    as (_ & Hlogin & _ & _ & Hframe).
  destruct (Hframe Hkey) as [_ Hplain].
  split; [apply Hplain; reflexivity|]. split; [vm_compute; reflexivity|exact Hlogin].
Defined.

(** *** On sample worlds *)

Lemma drive_uploads_then_shares_witness :
  ∃ w', uploadToGoogleDrive (replicate 10 x00) (str "a.txt")
          (drive_sample (Returned (Some (str "f1"))) (Returned ()))
        = (Returned (str "https://drive.google.com/file/d/f1/view"), w') ∧
        network w' =
          [DriveFilesCreate (Some (JStr (str "id"))) (Some (JStr (str "secret")))
             (str "a.txt") (replicate 10 x00);
           DrivePermissionsCreate (str "f1")].
Proof.
  destruct (drive_uploads_then_shares
              (drive_sample (Returned (Some (str "f1"))) (Returned ()))
              (replicate 10 x00) (str "a.txt")
              (Some (JStr (str "id"))) (Some (JStr (str "secret"))) (str "f1")
              eq_refl eq_refl eq_refl eq_refl eq_refl eq_refl)
    as (w' & Hrun & Hnet & _).
  exists w'. split; [exact Hrun|exact Hnet].
Defined.

Lemma drive_permission_failure_witness :
  ∃ w', uploadToGoogleDrive (replicate 10 x00) (str "a.txt")
          (drive_sample (Returned (Some (str "f1"))) (Threw (new_Error (str "denied"))))
        = (Threw (new_Error (str "Google Drive upload failed: Error: denied")), w') ∧
        network w' =
          [DriveFilesCreate (Some (JStr (str "id"))) (Some (JStr (str "secret")))
             (str "a.txt") (replicate 10 x00);
           DrivePermissionsCreate (str "f1")].
Proof.
  destruct (drive_permission_failure
              (drive_sample (Returned (Some (str "f1"))) (Threw (new_Error (str "denied"))))
              (replicate 10 x00) (str "a.txt")
              (Some (JStr (str "id"))) (Some (JStr (str "secret"))) (str "f1")
              (new_Error (str "denied"))
              eq_refl eq_refl eq_refl eq_refl eq_refl eq_refl)
    as (w' & Hrun & Hnet).
  exists w'. split; [exact Hrun|exact Hnet].
Defined.

Lemma upload_of_unreadable_file_witness :
  (upload_file (str "/tmp/a.txt") App.googledrive
     (drive_sample (Returned (Some (str "f1"))) (Returned ()))).1
  = Threw (new_Error (str "Upload failed: Error: ENOENT: no such file or directory, open '/tmp/a.txt'")) ∧
  network (upload_file (str "/tmp/a.txt") App.googledrive
             (drive_sample (Returned (Some (str "f1"))) (Returned ()))).2 = [].
Proof.
  rewrite (upload_of_unreadable_file
             (drive_sample (Returned (Some (str "f1"))) (Returned ()))
             (str "/tmp/a.txt") App.googledrive
             (ErrorObject (str "Error")
                (str "ENOENT: no such file or directory, open '/tmp/a.txt'"))
             eq_refl).
  split; reflexivity.
Defined.

Lemma uploaded_file_name_witness :
  ∃ fileName,
    network (upload_file (str "/tmp/a.txt") App.zero_x_zero
               (sample NoFile None None (Returned reply_200))).2
      = [Fetch0x0 (replicate 10 x00) fileName] ∧
    fileName = str "a.txt".
Proof.
  destruct (uploaded_file_name (sample NoFile None None (Returned reply_200))
              (str "/tmp/a.txt") (replicate 10 x00) eq_refl)
    as (fileName & Hnet & _ & _ & Hseg & _).
  exists fileName. split; [exact Hnet|].
  apply (Hseg (str "/tmp") (str "a.txt")); [reflexivity|].
  vm_compute. intros H. repeat (apply elem_of_cons in H as [H|H]; [discriminate|]).
  by apply elem_of_nil in H.
Defined.

Lemma saved_credentials_are_read_witness :
  ∃ w', save_google_credentials (str "id") (str "secret")
          (sample (Parsed settings) None None (Returned reply_200)) = (Returned (), w') ∧
        get_google_credentials w' =
          (Returned (JObj [(str "clientId", JStr (str "id"));
                           (str "clientSecret", JStr (str "secret"))]), w').
Proof.
  apply (saved_credentials_are_read
           (sample (Parsed settings) None None (Returned reply_200))
           (str "id") (str "secret")
           [(str "autoStart", JBool true); (str "autoCopy", JBool true)]);
    [reflexivity|reflexivity|discriminate|reflexivity].
Defined.

Lemma set_auto_copy_is_read_witness :
  ∃ w', set_auto_copy false
          (sample (Parsed settings) None None (Returned reply_200)) = (Returned true, w') ∧
        get_auto_copy w' = (Returned (JBool false), w').
Proof.
  apply (set_auto_copy_is_read
           (sample (Parsed settings) None None (Returned reply_200)) false
           [(str "autoStart", JBool true); (str "autoCopy", JBool true)]);
    [discriminate|reflexivity].
Defined.

Lemma array_configuration_forgets_witness :
  ∃ w', set_auto_copy true
          (sample (Parsed (JArr [JNum (Infinity false); JBool true])) None None
             (Returned reply_200)) = (Returned true, w') ∧
        stored w' = Some (JArr [JNull; JBool true]) ∧
        get_auto_copy w' = (Returned (JBool false), w').
Proof.
  destruct (array_configuration_forgets
              (sample (Parsed (JArr [JNum (Infinity false); JBool true])) None None
                 (Returned reply_200))
              [JNum (Infinity false); JBool true]
              (str "id") (str "secret") true eq_refl)
    as [(w' & Hset & Hstored & _ & Hget) _].
  exists w'. split; [exact Hset|]. split; [exact Hstored|exact Hget].
Defined.

Lemma saved_credentials_are_used_witness :
  ∃ w' rest,
    save_google_credentials (str "id") (str "secret")
      (sample NoFile (Some (str "env-id")) (Some (str "env-secret")) (Returned reply_200))
      = (Returned (), w') ∧
    network (uploadToGoogleDrive (replicate 10 x00) (str "a.txt") w').2 =
      network w' ++ DriveFilesCreate (Some (JStr (str "id"))) (Some (JStr (str "secret")))
                      (str "a.txt") (replicate 10 x00) :: rest.
Proof.
  apply (saved_credentials_are_used
           (sample NoFile (Some (str "env-id")) (Some (str "env-secret"))
              (Returned reply_200))
           (str "id") (str "secret") []);
    [reflexivity|reflexivity|discriminate|reflexivity].
Defined.

End MainMore.

(** ** More of the renderer *)

Module AppMore.
Import App AppFacts.

Lemma addFile_new_file p l : addFile p l = l ∨ addFile p l = l ++ [new_file p].
Proof. unfold addFile. destruct (list_find _ l); auto. Qed.

Lemma imap_out_of_range (g : nat → FileUpload → FileUpload) fileIndex l :
  (length l ≤ fileIndex)%nat → (∀ i x, i ≠ fileIndex → g i x = x) → imap g l = l.
Proof.
  intros Hlen Hg. apply list_eq. intros i. rewrite list_lookup_imap.
  destruct (l !! i) as [x|] eqn:Hx; [|done]. simpl. f_equal. apply Hg.
  apply lookup_lt_Some in Hx. lia.
Qed.

Lemma file_names_invariant api evs w :
  run (init api) evs = Some w →
  Forall (λ f, name f = last_segment_or (path f) (path f)) (files w).
Proof.
  intros Hrun.
  eapply (run_invariant
            (λ w, Forall (λ f, name f = last_segment_or (path f) (path f)) (files w)));
    [|done|by constructor].
  clear. intros w e w' Hstep Hok. apply step_files in Hstep.
  destruct e as [p|index|index|index|h|h [r|x]|s|b];
    try destruct Hstep as (u & _ & Hstep); rewrite Hstep; try done.
  - destruct (addFile_new_file p (files w)) as [-> | ->]; [done|].
    apply Forall_app_2; [done|]. by repeat constructor.
  - destruct (electronAPI w); [|done].
    apply Forall_imap_preserved; [|done]. intros i f Hf. by case_bool_decide.
  - by apply Forall_delete.
  - apply Forall_imap_preserved; [|done]. intros i f Hf. by destruct (_ && _).
  - apply Forall_imap_preserved; [|done]. intros i f Hf. by case_bool_decide.
  - apply Forall_imap_preserved; [|done]. intros i f Hf. by case_bool_decide.
Qed.

(** X13: the name shown for a file is the part of its path after the
    last slash, and the whole path when there is no slash or nothing
    behind the last one (the path is empty or ends with a slash); this
    holds for every file at every moment, whatever has happened to the
    file since it was added. *)
Theorem names_are_last_segments api evs w f :
  run (init api) evs = Some w → f ∈ files w →
  (∀ dir seg, path f = dir ++ slash :: seg → slash ∉ seg →
     name f = if nonempty seg then seg else path f) ∧
  (slash ∉ path f → name f = path f).
Proof.
  intros Hrun Hf. pose proof (file_names_invariant _ _ _ Hrun) as Hall.
  eapply Forall_forall in Hall; [|done]. rewrite Hall. split.
  - intros dir seg Hpath Hseg.
    pose proof (last_segment_or_slash dir seg (path f) Hseg) as Hname.
    by rewrite <- Hpath in Hname.
  - intros Hslash. rewrite last_segment_or_no_slash by done.
    by destruct (nonempty (path f)).
Qed.

Lemma run_app w evs1 evs2 :
  run w (evs1 ++ evs2) = w1 ← run w evs1; run w1 evs2.
Proof.
  revert w. induction evs1 as [|e evs1 IH]; intros w; simpl; [done|].
  destruct (step w e); simpl; [apply IH|done].
Qed.

(** X14: dropping several paths at once adds them one after the other:
    the files that were there stay as they are, in place; behind them come
    new idle files; every dropped path is in the list afterwards and no
    path is there that was neither there before nor dropped; paths that
    were pairwise distinct stay so; nothing is called and nothing awaited
    changes. *)
Theorem dropped_files_are_added filePaths : ∀ w,
  ∃ w' added,
    run w (FileArrives <$> filePaths) = Some w' ∧
    files w' = files w ++ added ∧
    Forall (λ f, f = new_file (path f)) added ∧
    (∀ p, p ∈ path <$> files w' ↔ p ∈ path <$> files w ∨ p ∈ filePaths) ∧
    (NoDup (path <$> files w) → NoDup (path <$> files w')) ∧
    calls w' = calls w ∧ pending w' = pending w.
Proof.
  induction filePaths as [|p ps IH]; intros w.
  - exists w, []. simpl. rewrite app_nil_r. repeat split; try done.
    + by left.
    + intros [?|Hin]; [done|]. by apply elem_of_nil in Hin.
  - destruct (IH (run_handler (setFiles (addFile p)) w))
      as (w' & added & Hrun & Hfiles & Hnew & Hpaths & Hnd & Hcalls & Hpend).
    cbn in Hfiles, Hpaths, Hnd, Hcalls, Hpend.
    exists w'. destruct (addFile_new_file p (files w)) as [Heq|Heq].
    + exists added. rewrite Heq in *. split; [exact Hrun|]. split; [done|].
      split; [done|]. split; [|done].
      intros q. rewrite Hpaths, elem_of_cons.
      assert (p ∈ path <$> files w) as Hp
        by (rewrite <- Heq; apply addFile_member). 
      split; [tauto|]. intros [?|[->|?]]; auto.
    + exists (new_file p :: added). rewrite Heq in *.
      split; [exact Hrun|]. split; [by rewrite Hfiles, <- app_assoc|].
      split; [by constructor|]. split; [|split; [|done]].
      * intros q. rewrite Hpaths, fmap_app, elem_of_app, elem_of_cons. simpl.
        rewrite list_elem_of_singleton. tauto.
      * intros Hw. apply Hnd. rewrite <- Heq. by apply addFile_NoDup.
Qed.

(** X15: a file is uploaded again by removing it and adding its path
    again: while the file is in the list, whatever its state, its path
    arriving again changes nothing; after the removal the path gives a
    new idle file at the end of the list, with progress 0 and neither url
    nor error. *)
Theorem retry_by_remove_and_add api evs w i f :
  run (init api) evs = Some w → files w !! i = Some f →
  (∃ w', step w (FileArrives (path f)) = Some w' ∧ files w' = files w) ∧
  (∃ w1 w2, step w (ClickRemove i) = Some w1 ∧
            step w1 (FileArrives (path f)) = Some w2 ∧
            files w2 = delete i (files w) ++ [new_file (path f)]).
Proof.
  intros Hrun Hf. split.
  - eexists. split; [done|]. cbn. apply addFile_known.
    apply list_elem_of_fmap. exists f. split; [done|]. by eapply list_elem_of_lookup_2.
  - eexists _, _. simpl. rewrite Hf. simpl. split; [done|]. split; [done|].
    cbn. rewrite removeFile_delete. apply addFile_fresh.
    rewrite list_fmap_delete. apply NoDup_delete_lookup.
    + by eapply reachable_NoDup.
    + by rewrite list_lookup_fmap, Hf.
Qed.

(** X16: an awaited upload whose position is past the end of the list,
    its file and the files behind it having been removed, changes no file
    when its interval fires or when it settles either way. *)
Theorem upload_past_the_end w h u e w' :
  pending w !! h = Some u → (length (files w) ≤ fileIndex u)%nat →
  (e = IntervalFires h ∨ ∃ r, e = UploadSettles h r) →
  step w e = Some w' → files w' = files w.
Proof.
  intros Hu Hlen He Hstep. apply step_files in Hstep.
  destruct He as [->|[[r|x] ->]]; destruct Hstep as (u' & Hu' & ->);
    rewrite Hu in Hu'; injection Hu' as <-;
    (apply (imap_out_of_range _ (fileIndex u)); [done|]); intros i f Hi;
    by rewrite bool_decide_eq_false_2.
Qed.

(** X17: without [window.electronAPI] nothing is ever uploaded: whatever
    happens, every file stays idle, no upload is awaited and nothing is
    called. *)
Theorem no_api_no_upload evs w :
  run (init false) evs = Some w →
  Forall (λ f, state f = Idle) (files w) ∧ pending w = ∅ ∧ calls w = [] ∧
  electronAPI w = false.
Proof.
  intros Hrun.
  eapply (run_invariant
            (λ w, Forall (λ f, state f = Idle) (files w) ∧ pending w = ∅
                  ∧ calls w = [] ∧ electronAPI w = false)); [|done|by repeat split].
  clear. intros w e w' Hstep (Hidle & Hpend & Hcalls & Hapi).
  destruct e as [p|index|index|index|h|h r|s|b]; simpl in Hstep.
  - injection Hstep as <-. cbn. split; [|done].
    destruct (addFile_new_file p (files w)) as [-> | ->]; [done|].
    apply Forall_app_2; [done|]. by repeat constructor.
  - destruct (files w !! index) as [f0|] eqn:Hf0; [|done]. simpl in Hstep.
    case_bool_decide; [|done]. injection Hstep as <-.
    rewrite (begin_run _ _ f0) by done. by rewrite Hapi.
  - destruct (files w !! index) as [f0|] eqn:Hf0; [|done]. simpl in Hstep.
    eapply Forall_lookup_1 in Hidle; [|done].
    destruct (url f0); [|done]. rewrite Hidle in Hstep.
    by rewrite bool_decide_eq_false_2 in Hstep.
  - destruct (files w !! index) as [f0|]; [|done]. injection Hstep as <-.
    cbn. split; [|done]. rewrite removeFile_delete. by apply Forall_delete.
  - by rewrite Hpend, lookup_empty in Hstep.
  - by rewrite Hpend, lookup_empty in Hstep.
  - by injection Hstep as <-.
  - by injection Hstep as <-.
Qed.


(** X18: a path is in the list at most once, at every moment: two
    positions that hold files with the same path are the same position. *)
Theorem paths_are_unique api evs w i j f g :
  run (init api) evs = Some w →
  files w !! i = Some f → files w !! j = Some g → path f = path g → i = j.
Proof.
  intros Hrun Hf Hg Heq. pose proof (reachable_NoDup _ _ _ Hrun) as Hnd.
  eapply NoDup_lookup; [exact Hnd| |]; rewrite list_lookup_fmap.
  - by rewrite Hf.
  - rewrite Hg. simpl. by rewrite Heq.
Qed.

Lemma tick_run w h u :
  pending w !! h = Some u →
  step w (IntervalFires h) =
    Some {| files := progress_tick (fileIndex u) (files w);
            selectedService := selectedService w; autoCopy := autoCopy w;
            electronAPI := electronAPI w; pending := pending w;
            nextTimer := nextTimer w; calls := calls w |}.
Proof. intros Hu. simpl. by rewrite Hu. Qed.

(** X19: the interval alone takes the progress of its file from where it
    is up to 90 in steps of 10 and holds it there: after [n] firings with
    nothing in between, the file is still uploading with progress
    min (progress + 10 n, 90), and every other file is as it was. *)
Theorem ticks_climb_to_ninety api evs w h u f (n : nat) :
  run (init api) evs = Some w →
  pending w !! h = Some u → files w !! fileIndex u = Some f →
  state f = Uploading →
  ∃ w' f',
    run w (replicate n (IntervalFires h)) = Some w' ∧
    files w' !! fileIndex u = Some f' ∧
    state f' = Uploading ∧
    progress f' = Z.min (progress f + 10 * Z.of_nat n) 90 ∧
    (∀ j, j ≠ fileIndex u → files w' !! j = files w !! j).
Proof.
  intros Hrun Hu Hf Hst.
  pose proof (Forall_lookup_1 _ _ _ _ (reachable_progress_ok _ _ _ Hrun) Hf) as Hok.
  unfold progress_ok in Hok. rewrite Hst in Hok. destruct Hok as [Hrange Hdiv].
  clear Hrun. revert w f Hu Hf Hst Hrange Hdiv.
  induction n as [|n IH]; intros w f Hu Hf Hst Hrange Hdiv.
  - exists w, f. simpl. repeat split; try done. lia.
  - simpl. rewrite Hu. simpl.
    set (w1 := run_handler (setFiles (progress_tick (fileIndex u))) w).
    assert (∃ f1, files w1 !! fileIndex u = Some f1 ∧ state f1 = Uploading ∧
                  progress f1 = Z.min (progress f + 10) 90 ∧
                  0 ≤ progress f1 ≤ 90 ∧ (10 | progress f1))
      as (f1 & Hf1 & Hst1 & Hp1 & Hrange1 & Hdiv1).
    { cbn. unfold progress_tick. rewrite list_lookup_imap, Hf. simpl.
      rewrite bool_decide_eq_true_2 by done. rewrite bool_decide_eq_true_2 by done.
      simpl. destruct Hdiv as [k Hk]. case_bool_decide.
      - eexists. split; [done|]. simpl. split; [done|]. split; [lia|].
        split; [lia|]. exists (k + 1). lia.
      - eexists. split; [done|]. split; [done|]. split; [lia|]. split; [lia|].
        by exists k. }
    destruct (IH w1 f1 Hu Hf1 Hst1 Hrange1 Hdiv1) as (w' & f' & Hrun' & Hf' & Hst' & Hp' & Hothers).
    exists w', f'. split; [done|]. split; [done|]. split; [done|]. split; [lia|].
    intros j Hj. rewrite (Hothers j Hj). cbn. unfold progress_tick.
    rewrite list_lookup_imap. destruct (files w !! j); [|done]. simpl.
    by rewrite bool_decide_eq_false_2.
Qed.

Lemma step_fresh w e w' :
  step w e = Some w' →
  (∀ h u, pending w !! h = Some u → (h < nextTimer w)%nat) →
  (∀ h u, pending w' !! h = Some u → (h < nextTimer w')%nat)
  ∧ (nextTimer w ≤ nextTimer w')%nat.
Proof.
  intros Hstep Hfresh. pose proof (step_pending _ _ _ Hstep) as Hpend.
  destruct e as [p|index|index|index|h0|h0 r|s|b].
  2: { destruct Hpend as (f0 & _ & _ & Hpend).
       destruct (electronAPI w); destruct Hpend as [-> ->]; [|split; [done|lia]].
       split; [|lia]. intros h u. rewrite lookup_insert. case_decide.
       - intros _. lia.
       - intros Hu. apply Hfresh in Hu. lia. }
  5: { destruct Hpend as [-> ->]. split; [|lia]. intros h u.
       rewrite lookup_delete. case_decide; [done|]. apply Hfresh. }
  all: destruct Hpend as [-> ->]; split; [done|lia].
Qed.

Lemma reachable_fresh api evs w :
  run (init api) evs = Some w →
  ∀ h u, pending w !! h = Some u → (h < nextTimer w)%nat.
Proof.
  intros Hrun.
  eapply (run_invariant (λ w, ∀ h u, pending w !! h = Some u → (h < nextTimer w)%nat));
    [|done|].
  - intros w0 e w1 Hstep Hfresh. by apply (step_fresh _ _ _ Hstep).
  - intros h u. simpl. by rewrite lookup_empty.
Qed.

Lemma step_retired h w e w' :
  step w e = Some w' →
  (h < nextTimer w)%nat ∧ pending w !! h = None →
  (h < nextTimer w')%nat ∧ pending w' !! h = None.
Proof.
  intros Hstep [Hlt Hnone]. pose proof (step_pending _ _ _ Hstep) as Hpend.
  destruct e as [p|index|index|index|h0|h0 r|s|b];
    try (by destruct Hpend as [-> ->]).
  - destruct Hpend as (f0 & _ & _ & Hpend).
    destruct (electronAPI w); destruct Hpend as [-> ->]; [|done].
    split; [lia|]. rewrite lookup_insert_ne; [done|lia].
  - destruct Hpend as [-> ->]. split; [done|].
    rewrite lookup_delete. by case_decide.
Qed.

(** X20: an upload settles once and its interval stops for good: after
    the awaited call of a handle has settled, that handle is never awaited
    again, so in every later state neither its interval can fire nor can
    it settle a second time. *)
Theorem settled_for_good api evs1 w1 h r w2 evs2 w :
  run (init api) evs1 = Some w1 →
  step w1 (UploadSettles h r) = Some w2 →
  run w2 evs2 = Some w →
  pending w !! h = None ∧
  step w (IntervalFires h) = None ∧
  ∀ r', step w (UploadSettles h r') = None.
Proof.
  intros Hrun1 Hstep Hrun2.
  assert ((h < nextTimer w2)%nat ∧ pending w2 !! h = None) as Hret.
  { pose proof (step_pending _ _ _ Hstep) as [Hp Hn]. rewrite Hp, Hn.
    split; [|apply lookup_delete_eq].
    simpl in Hstep. destruct (pending w1 !! h) as [u|] eqn:Hu; [|done].
    by eapply reachable_fresh. }
  assert ((h < nextTimer w)%nat ∧ pending w !! h = None) as [_ Hnone].
  { eapply (run_invariant (λ w, (h < nextTimer w)%nat ∧ pending w !! h = None));
      [|exact Hrun2|exact Hret].
    intros ???. apply step_retired. }
  split; [done|]. simpl. by rewrite Hnone.
Qed.

(** X21: the calls keep count: at every moment as many uploads have been
    asked of the main process as handles were given out, and the
    notifications requested are at most the uploads that have settled,
    that is the uploads asked minus those still awaited. *)
Theorem calls_keep_count api evs w :
  run (init api) evs = Some w →
  length (filter is_upload_call (calls w)) = nextTimer w ∧
  (length (filter is_notification (calls w)) + size (pending w) ≤ nextTimer w)%nat.
Proof.
  intros Hrun.
  enough (length (filter is_upload_call (calls w)) = nextTimer w ∧
          (length (filter is_notification (calls w)) + size (pending w)
             ≤ nextTimer w)%nat ∧
          (∀ h u, pending w !! h = Some u → (h < nextTimer w)%nat)) by tauto.
  eapply (run_invariant
            (λ w, length (filter is_upload_call (calls w)) = nextTimer w ∧
                  (length (filter is_notification (calls w)) + size (pending w)
                     ≤ nextTimer w)%nat ∧
                  (∀ h u, pending w !! h = Some u → (h < nextTimer w)%nat)));
    [|exact Hrun|].
  2: { simpl. rewrite map_size_empty. split; [done|]. split; [done|].
       intros h u. by rewrite lookup_empty. }
  clear. intros w e w' Hstep (Hup & Hnot & Hfresh).
  split; [|split; [|by apply (step_fresh _ _ _ Hstep)]].
  - destruct e as [p|index|index|index|h|h r|s|b]; simpl in Hstep.
    + by injection Hstep as <-.
    + destruct (files w !! index) as [f0|] eqn:Hf0; [|done]. simpl in Hstep.
      case_bool_decide; [|done]. injection Hstep as <-.
      rewrite (begin_run _ _ f0) by done. destruct (electronAPI w); [|done].
      simpl. rewrite filter_app, length_app, Hup. simpl. lia.
    + destruct (files w !! index) as [f0|]; [|done]. simpl in Hstep.
      destruct (url f0); [|done]. destruct (_ && _); [|done].
      injection Hstep as <-. cbn. rewrite filter_app, length_app, Hup. simpl. lia.
    + destruct (files w !! index) as [f0|]; [|done]. by injection Hstep as <-.
    + destruct (pending w !! h) as [u|]; [|done]. by injection Hstep as <-.
    + destruct (pending w !! h) as [u|]; [|done]. injection Hstep as <-.
      unfold run_handler. destruct r as [link|x].
      * rewrite resume_resolved. simpl. rewrite !filter_app, !length_app, Hup.
        destruct (auto_copy u && nonempty link), (electronAPI w && nonempty link);
          simpl; lia.
      * by rewrite resume_rejected.
    + by injection Hstep as <-.
    + by injection Hstep as <-.
  - destruct e as [p|index|index|index|h|h r|s|b]; simpl in Hstep.
    + by injection Hstep as <-.
    + destruct (files w !! index) as [f0|] eqn:Hf0; [|done]. simpl in Hstep.
      case_bool_decide; [|done]. injection Hstep as <-.
      rewrite (begin_run _ _ f0) by done. destruct (electronAPI w); [|done].
      simpl. rewrite filter_app, length_app. simpl.
      rewrite map_size_insert_None; [lia|].
      destruct (pending w !! nextTimer w) as [u|] eqn:Hu; [|done].
      apply Hfresh in Hu. lia.
    + destruct (files w !! index) as [f0|]; [|done]. simpl in Hstep.
      destruct (url f0); [|done]. destruct (_ && _); [|done].
      injection Hstep as <-. cbn. rewrite filter_app, length_app. simpl. lia.
    + destruct (files w !! index) as [f0|]; [|done]. by injection Hstep as <-.
    + destruct (pending w !! h) as [u|]; [|done]. by injection Hstep as <-.
    + destruct (pending w !! h) as [u|] eqn:Hu; [|done]. injection Hstep as <-.
      assert (size (pending w) = S (size (delete h (pending w)))) as Hsize.
      { rewrite map_size_delete_Some by done.
        assert (size (pending w) ≠ 0%nat); [|lia].
        intros Hz. apply map_size_empty_inv in Hz. by rewrite Hz, lookup_empty in Hu. }
      unfold run_handler. destruct r as [link|x].
      * rewrite resume_resolved. simpl. rewrite !filter_app, !length_app.
        destruct (auto_copy u && nonempty link), (electronAPI w && nonempty link);
          simpl; lia.
      * rewrite resume_rejected. simpl. lia.
    + by injection Hstep as <-.
    + by injection Hstep as <-.
Qed.

Lemma addFile_lookup_inv p l i f :
  addFile p l !! i = Some f → l !! i = Some f ∨ f = new_file p.
Proof.
  destruct (addFile_new_file p l) as [-> | ->]; [by left|].
  intros [Hf|[_ Hf]]%lookup_app_Some; [by left|right].
  apply list_lookup_singleton_Some in Hf as [_ <-]. done.
Qed.

Lemma init_tidy api : tidy (init api).
Proof.
  split; simpl.
  - intros i f Hf. by rewrite lookup_nil in Hf.
  - intros h u Hu. by rewrite lookup_empty in Hu.
  - constructor.
Qed.

Lemma step_tidy w e w' :
  live w → tidy w → step w e = Some w' →
  (∀ index, e = ClickRemove index → safe_remove w index = true) →
  tidy w'.
Proof.
  intros [Hup Huniq Hfresh] [Hpointed Hpath Hout] Hstep Hsafe.
  pose proof (step_files _ _ _ Hstep) as Hfiles.
  pose proof (step_pending _ _ _ Hstep) as Hpend.
  destruct e as [p|index|index|index|h|h r|s|b].
  - destruct Hpend as [Hp Hn]. split; rewrite ?Hp, ?Hfiles.
    + intros i f Hf Hst. apply addFile_lookup_inv in Hf as [Hf| ->]; [eauto|done].
    + intros h u Hu. destruct (Hpath _ _ Hu) as (f & Hf & Heq).
      exists f. split; [by apply addFile_lookup|done].
    + destruct (addFile_new_file p (files w)) as [-> | ->]; [done|].
      apply Forall_app_2; [done|]. by repeat constructor.
  - destruct Hpend as (f0 & Hf0 & Hidle & Hpend).
    destruct (electronAPI w); destruct Hpend as [Hp Hn];
      [|by split; rewrite ?Hp, ?Hfiles].
    split; rewrite ?Hp, ?Hfiles.
    + intros i f. unfold mark_uploading. rewrite list_lookup_imap.
      destruct (files w !! i) as [f1|] eqn:Hf1; [|done]. simpl.
      case_bool_decide as Hi.
      * intros _ _. subst i. eexists _, _. split; [apply lookup_insert_eq|done].
      * intros [= <-] Hst. destruct (Hpointed _ _ Hf1 Hst) as (h & u & Hu & Hidx).
        exists h, u. split; [|done]. rewrite lookup_insert_ne; [done|].
        apply Hfresh in Hu. lia.
    + intros h u. rewrite lookup_insert. case_decide.
      * intros [= <-]. simpl. unfold mark_uploading.
        rewrite list_lookup_imap, Hf0. simpl.
        rewrite bool_decide_eq_true_2 by done. eauto.
      * intros Hu. destruct (Hpath _ _ Hu) as (f & Hf & Heq1 & Heq2).
        unfold mark_uploading. rewrite list_lookup_imap, Hf. simpl.
        case_bool_decide; eauto.
    + apply Forall_lookup_2. intros i f. unfold mark_uploading.
      rewrite list_lookup_imap.
      destruct (files w !! i) as [f1|] eqn:Hf1; [|done]. simpl.
      pose proof (Forall_lookup_1 _ _ _ _ Hout Hf1) as Hok1.
      case_bool_decide as Hi; intros [= <-]; [|done].
      subst i. rewrite Hf0 in Hf1. injection Hf1 as <-.
      unfold outcome_ok in *. simpl. by rewrite Hidle in Hok1.
  - destruct Hpend as [Hp Hn]. by split; rewrite ?Hp, ?Hfiles.
  - destruct Hpend as [Hp Hn].
    assert (∀ h u, pending w !! h = Some u → (fileIndex u < index)%nat) as Hlt.
    { intros h u Hu. eapply safe_remove_lt; [|done]. by apply Hsafe. }
    split; rewrite ?Hp, ?Hfiles.
    + intros i f Hf Hst. destruct (decide (i < index)%nat) as [Hi|Hi].
      * rewrite list_lookup_delete_lt in Hf by done. eauto.
      * rewrite list_lookup_delete_ge in Hf by lia.
        destruct (Hpointed _ _ Hf Hst) as (h & u & Hu & Hidx).
        apply Hlt in Hu. lia.
    + intros h u Hu. destruct (Hpath _ _ Hu) as (f & Hf & Heq).
      exists f. split; [|done]. rewrite list_lookup_delete_lt; [done|]. eauto.
    + by apply Forall_delete.
  - destruct Hpend as [Hp Hn]. destruct Hfiles as (u0 & Hu0 & Hfiles).
    split; rewrite ?Hp, ?Hfiles.
    + intros i f. unfold progress_tick. rewrite list_lookup_imap.
      destruct (files w !! i) as [f1|] eqn:Hf1; [|done]. simpl.
      destruct (_ && _); intros [= <-] Hst; eauto.
    + intros h' u Hu. destruct (Hpath _ _ Hu) as (f & Hf & Heq1 & Heq2).
      unfold progress_tick. rewrite list_lookup_imap, Hf. simpl.
      destruct (_ && _); eauto.
    + apply Forall_imap_preserved; [|done]. intros i f Hf. by destruct (_ && _).
  - destruct Hpend as [Hp Hn].
    assert (∃ u0 (g : FileUpload → FileUpload),
              pending w !! h = Some u0 ∧
              files w' = imap (λ i f, if bool_decide (i = fileIndex u0) then g f else f)
                           (files w) ∧
              (∀ f, state (g f) ≠ Uploading ∧ path (g f) = path f ∧ name (g f) = name f) ∧
              (∀ f, state f = Uploading → outcome_ok f → outcome_ok (g f)))
      as (u0 & g & Hu0 & Hfiles' & Hg & Hgok).
    { destruct r; destruct Hfiles as (u0 & Hu0 & ->); exists u0; eexists;
        (split; [done|]); (split; [reflexivity|]); split; try done;
        intros f Hst; unfold outcome_ok; simpl; rewrite Hst; intros [? ?]; eauto. }
    split; rewrite ?Hp, ?Hfiles'.
    + intros i f. rewrite list_lookup_imap.
      destruct (files w !! i) as [f1|] eqn:Hf1; [|done]. simpl.
      case_bool_decide as Hi; intros [= <-] Hst; [by apply Hg in Hst|].
      destruct (Hpointed _ _ Hf1 Hst) as (h' & u & Hu & Hidx).
      exists h', u. split; [|done]. rewrite lookup_delete_ne; [done|].
      intros <-. rewrite Hu0 in Hu. injection Hu as <-. done.
    + intros h' u. rewrite lookup_delete. case_decide; [done|].
      intros Hu. destruct (Hpath _ _ Hu) as (f & Hf & Heq1 & Heq2).
      rewrite list_lookup_imap, Hf. simpl.
      case_bool_decide; eexists; (split; [done|]); [|done].
      destruct (Hg f) as (_ & -> & ->). done.
    + apply Forall_lookup_2. intros i f. rewrite list_lookup_imap.
      destruct (files w !! i) as [f1|] eqn:Hf1; [|done]. simpl.
      pose proof (Forall_lookup_1 _ _ _ _ Hout Hf1) as Hok1.
      case_bool_decide as Hi; intros [= <-]; [|done].
      apply Hgok; [|done]. subst i.
      destruct (Hup _ _ Hu0) as (f2 & Hf2 & Hst2). congruence.
  - destruct Hpend as [Hp Hn]. by split; rewrite ?Hp, ?Hfiles.
  - destruct Hpend as [Hp Hn]. by split; rewrite ?Hp, ?Hfiles.
Qed.

Lemma calm_tidy evs : ∀ w w',
  live w → tidy w → calm w evs = true → run w evs = Some w' → live w' ∧ tidy w'.
Proof.
  induction evs as [|e evs IH]; intros w w' Hlive Htidy Hcalm Hrun; simpl in *.
  - by injection Hrun as <-.
  - destruct (step w e) as [w1|] eqn:He; [|done]. simpl in Hrun.
    apply andb_prop in Hcalm as [Hsafe Hcalm].
    assert (∀ index, e = ClickRemove index → safe_remove w index = true) as Hs
      by (by intros index ->).
    eapply IH; [| |done..].
    + by eapply step_live.
    + by eapply step_tidy.
Qed.

(** X22: in a calm run, one where no file is removed at or before a
    position that an awaited upload points at, the files that are
    uploading are exactly the files an awaited upload points at, and each
    awaited upload points at the file it was begun for, with the path and
    the name it captured. *)
Theorem calm_uploads_are_awaited api evs w :
  run (init api) evs = Some w → calm (init api) evs = true →
  (∀ i f, files w !! i = Some f →
     (state f = Uploading ↔ ∃ h u, pending w !! h = Some u ∧ fileIndex u = i)) ∧
  (∀ h u, pending w !! h = Some u →
     ∃ f, files w !! fileIndex u = Some f ∧ path f = path (file u)
          ∧ name f = name (file u)).
Proof.
  intros Hrun Hcalm.
  destruct (calm_tidy _ _ _ (init_live api) (init_tidy api) Hcalm Hrun)
    as [[Hup _ _] [Hpointed Hpath _]].
  split; [|done]. intros i f Hf. split; [by apply Hpointed|].
  intros (h & u & Hu & <-). destruct (Hup _ _ Hu) as (f' & Hf' & Hst). congruence.
Qed.

(** X23: in a calm run the outcome goes with the state: an idle or
    uploading file has neither url nor error, a successful file has a url
    and no error, a failed file has an error and no url. *)
Theorem calm_outcomes api evs w f :
  run (init api) evs = Some w → calm (init api) evs = true → f ∈ files w →
  match state f with
  | Idle | Uploading => url f = None ∧ error f = None
  | Success => is_Some (url f) ∧ error f = None
  | Error => url f = None ∧ is_Some (error f)
  end.
Proof.
  intros Hrun Hcalm Hf.
  destruct (calm_tidy _ _ _ (init_live api) (init_tidy api) Hcalm Hrun)
    as [_ [_ _ Hout]].
  by eapply Forall_forall in Hout.
Qed.

(** *** On sample runs *)

Lemma names_are_last_segments_witness :
  ∃ f, files (after [FileArrives a_txt; ClickUpload 0; IntervalFires 0]) !! 0%nat
         = Some f ∧
       state f = Uploading ∧
       path f = str "/tmp" ++ slash :: str "a.txt" ∧ name f = str "a.txt".
Proof.
  exists {| path := a_txt; name := str "a.txt"; state := Uploading; progress := 10;
            url := None; error := None |}.
  split; [vm_compute; reflexivity|]. split; [reflexivity|].
  split; [vm_compute; reflexivity|].
  destruct (names_are_last_segments true
              [FileArrives a_txt; ClickUpload 0; IntervalFires 0]
              (after [FileArrives a_txt; ClickUpload 0; IntervalFires 0])
              {| path := a_txt; name := str "a.txt"; state := Uploading; progress := 10;
                 url := None; error := None |}
              eq_refl) as [Hname _].
  - vm_compute. by left.
  - apply (Hname (str "/tmp") (str "a.txt")); [vm_compute; reflexivity|].
    vm_compute. intros H. repeat (apply elem_of_cons in H as [H|H]; [discriminate|]).
    by apply elem_of_nil in H.
Defined.

Lemma paths_are_unique_witness :
  ∃ f, files (after [FileArrives a_txt; FileArrives b_txt]) !! 1%nat = Some f ∧
       path f = b_txt ∧ 1%nat = 1%nat.
Proof.
  eexists. split; [vm_compute; reflexivity|]. split; [vm_compute; reflexivity|].
  eapply (paths_are_unique true [FileArrives a_txt; FileArrives b_txt]
            (after [FileArrives a_txt; FileArrives b_txt]) 1 1);
    [vm_compute; reflexivity| vm_compute; reflexivity | vm_compute; reflexivity | reflexivity].
Defined.

Lemma retry_by_remove_and_add_witness :
  ∃ w1 w2,
    step (after [FileArrives a_txt; ClickUpload 0;
                 UploadSettles 0 (Rejected (new_Error (str "boom")))])
      (ClickRemove 0) = Some w1 ∧
    step w1 (FileArrives a_txt) = Some w2 ∧
    files w2 = [new_file a_txt].
Proof.
  destruct (retry_by_remove_and_add true
              [FileArrives a_txt; ClickUpload 0;
               UploadSettles 0 (Rejected (new_Error (str "boom")))]
              (after [FileArrives a_txt; ClickUpload 0;
                      UploadSettles 0 (Rejected (new_Error (str "boom")))])
              0%nat
              {| path := a_txt; name := str "a.txt"; state := Error; progress := 0;
                 url := None; error := Some (str "boom") |})
    as [_ (w1 & w2 & H1 & H2 & H3)]; [vm_compute; reflexivity..|].
  exists w1, w2. split; [exact H1|]. split; [exact H2|exact H3].
Defined.

Lemma upload_past_the_end_witness :
  ∃ w', step (after [FileArrives a_txt; ClickUpload 0; ClickRemove 0])
          (UploadSettles 0 (Resolved link)) = Some w' ∧
        files w' = [].
Proof.
  eexists. split; [vm_compute; reflexivity|].
  eapply (upload_past_the_end
            (after [FileArrives a_txt; ClickUpload 0; ClickRemove 0]) 0%nat _
            (UploadSettles 0 (Resolved link)));
    [vm_compute; reflexivity| vm_compute; lia | right; by eexists
    | vm_compute; reflexivity].
Defined.

Lemma no_api_no_upload_witness :
  ∃ w, run (init false) [FileArrives a_txt; ClickUpload 0] = Some w ∧
       Forall (λ f, state f = Idle) (files w) ∧ calls w = [].
Proof.
  eexists. split; [vm_compute; reflexivity|].
  eassert (_ ∧ _ ∧ _ ∧ _) as (Hidle & _ & Hcalls & _);
    [eapply (no_api_no_upload [FileArrives a_txt; ClickUpload 0]);
     vm_compute; reflexivity|].
  split; [exact Hidle|exact Hcalls].
Defined.

Lemma ticks_climb_to_ninety_witness :
  ∃ w' f',
    run (after [FileArrives a_txt; ClickUpload 0])
      (replicate 12 (IntervalFires 0)) = Some w' ∧
    files w' !! 0%nat = Some f' ∧ state f' = Uploading ∧ progress f' = 90.
Proof.
  destruct (ticks_climb_to_ninety true [FileArrives a_txt; ClickUpload 0]
              (after [FileArrives a_txt; ClickUpload 0]) 0%nat
              {| fileIndex := 0; file := new_file a_txt; service := zero_x_zero;
                 auto_copy := false |}
              {| path := a_txt; name := str "a.txt"; state := Uploading; progress := 0;
                 url := None; error := None |} 12)
    as (w' & f' & Hrun & Hf' & Hst & Hp & _); [vm_compute; reflexivity..|].
  exists w', f'. split; [exact Hrun|]. split; [exact Hf'|]. split; [exact Hst|exact Hp].
Defined.

Lemma settled_for_good_witness :
  step (after [FileArrives a_txt; ClickUpload 0; UploadSettles 0 (Resolved link);
               FileArrives b_txt; ClickUpload 1]) (IntervalFires 0) = None ∧
  step (after [FileArrives a_txt; ClickUpload 0; UploadSettles 0 (Resolved link);
               FileArrives b_txt; ClickUpload 1]) (UploadSettles 0 (Resolved link)) = None.
Proof.
  destruct (settled_for_good true [FileArrives a_txt; ClickUpload 0]
              (after [FileArrives a_txt; ClickUpload 0]) 0%nat (Resolved link)
              (after [FileArrives a_txt; ClickUpload 0; UploadSettles 0 (Resolved link)])
              [FileArrives b_txt; ClickUpload 1]
              (after [FileArrives a_txt; ClickUpload 0; UploadSettles 0 (Resolved link);
                      FileArrives b_txt; ClickUpload 1]))
    as (_ & Htick & Hsettle); [vm_compute; reflexivity..|].
  split; [exact Htick|apply Hsettle].
Defined.

Lemma calls_keep_count_witness :
  length (filter is_upload_call
            (calls (after [FileArrives a_txt; FileArrives b_txt; ClickUpload 0;
                           ClickUpload 1; UploadSettles 0 (Resolved link)]))) = 2%nat ∧
  (length (filter is_notification
             (calls (after [FileArrives a_txt; FileArrives b_txt; ClickUpload 0;
                            ClickUpload 1; UploadSettles 0 (Resolved link)])))
   + size (pending (after [FileArrives a_txt; FileArrives b_txt; ClickUpload 0;
                           ClickUpload 1; UploadSettles 0 (Resolved link)])) ≤ 2)%nat.
Proof.
  apply (calls_keep_count true
           [FileArrives a_txt; FileArrives b_txt; ClickUpload 0; ClickUpload 1;
            UploadSettles 0 (Resolved link)]). vm_compute. reflexivity.
Defined.

Lemma calm_uploads_are_awaited_witness :
  ∃ f, files (after [FileArrives a_txt; FileArrives b_txt; ClickUpload 0; ClickRemove 1])
         !! 0%nat = Some f ∧
       (state f = Uploading ↔
        ∃ h u, pending (after [FileArrives a_txt; FileArrives b_txt; ClickUpload 0;
                               ClickRemove 1]) !! h = Some u ∧ fileIndex u = 0%nat).
Proof.
  eexists. split; [vm_compute; reflexivity|].
  destruct (calm_uploads_are_awaited true
              [FileArrives a_txt; FileArrives b_txt; ClickUpload 0; ClickRemove 1]
              (after [FileArrives a_txt; FileArrives b_txt; ClickUpload 0; ClickRemove 1]))
    as [Hiff _]; [vm_compute; reflexivity..|].
  apply Hiff. vm_compute. reflexivity.
Defined.

Lemma calm_outcomes_witness :
  ∃ f, files (after [FileArrives a_txt; ClickUpload 0; UploadSettles 0 (Resolved link)])
         !! 0%nat = Some f ∧
       state f = Success ∧ is_Some (url f) ∧ error f = None.
Proof.
  eexists. split; [vm_compute; reflexivity|]. split; [vm_compute; reflexivity|].
  apply (calm_outcomes true
           [FileArrives a_txt; ClickUpload 0; UploadSettles 0 (Resolved link)]
           (after [FileArrives a_txt; ClickUpload 0; UploadSettles 0 (Resolved link)])
           {| path := a_txt; name := str "a.txt"; state := Success; progress := 100;
              url := Some (str "https://0x0.st/abc.txt"); error := None |});
    [vm_compute; reflexivity..|]. vm_compute. by left.
Defined.

End AppMore.

(** ** Properties of the two processes together *)

Lemma trimStart_fixed s :
  (∀ c, head s = Some c → is_whitespace c = false) → trimStart s = s.
Proof. destruct s as [|c s]; [done|]. intros Hc. simpl. by rewrite (Hc c). Qed.

Lemma trimEnd_fixed s :
  (∀ c, last s = Some c → is_whitespace c = false) → trimEnd s = s.
Proof.
  intros Hc. unfold trimEnd. rewrite trimStart_fixed; [apply reverse_involutive|].
  intros c. rewrite head_reverse. apply Hc.
Qed.

Lemma trim_idempotent s : trim (trim s) = trim s.
Proof.
  destruct (trim_spec s) as (_ & _ & _ & _ & _ & Hhead & Hlast).
  unfold trim at 1. rewrite trimStart_fixed by done. by apply trimEnd_fixed.
Qed.

Module WiringFacts.
Import MainFacts MainMore AppFacts AppMore.

#[local] Arguments Main.set_field : simpl never.

(** X24: an upload to 0x0.st from click to link: for an idle file, with
    [window.electronAPI] there and 0x0.st selected, a file that can be
    read and an answer in 200-299, the click and the answer of
    ['upload-file'] leave the file successful at progress 100 with the
    trimmed body of the answer as its url, after one call to the network;
    the renderer has asked for the upload once and requested the
    notification when the link is not empty. *)
Theorem upload_from_click_to_link aw mw index f fileBuffer response :
  App.electronAPI aw = true → App.selectedService aw = App.zero_x_zero →
  App.files aw !! index = Some f → App.state f = App.Idle →
  Main.userFiles mw (App.path f) = Returned fileBuffer →
  Main.fetch_reply mw fileBuffer (last_segment_or (App.path f) (str "file"))
    = Returned response →
  Main.ok response = true →
  ∃ aw' mw',
    Wiring.upload_and_resolve index aw mw = Some (aw', mw') ∧
    App.files aw' !! index =
      Some {| App.path := App.path f; App.name := App.name f;
              App.state := App.Success; App.progress := 100;
              App.url := Some (trim (Main.text response));
              App.error := App.error f |} ∧
    Main.network mw' =
      Main.network mw
      ++ [Main.Fetch0x0 fileBuffer (last_segment_or (App.path f) (str "file"))] ∧
    filter App.is_upload_call (App.calls aw')
      = filter App.is_upload_call (App.calls aw)
        ++ [App.IpcUploadFile (App.path f) App.zero_x_zero] ∧
    length (filter App.is_notification (App.calls aw'))
      = (length (filter App.is_notification (App.calls aw))
         + if nonempty (trim (Main.text response)) then 1 else 0)%nat.
Proof.
  intros Hapi Hsvc Hf Hidle Hfile Hreply Hok.
  unfold Wiring.upload_and_resolve. rewrite Hf. simpl. rewrite Hf. simpl.
  rewrite bool_decide_eq_true_2 by done. simpl.
  rewrite (begin_run _ _ f) by done. rewrite Hapi, Hsvc.
  rewrite (upload_file_run _ _ _ fileBuffer) by done. simpl.
  assert (Main.uploadTo0x0 fileBuffer (last_segment_or (App.path f) (str "file")) mw
          = (Returned (trim (Main.text response)),
             Main.with_call (Main.Fetch0x0 fileBuffer
                               (last_segment_or (App.path f) (str "file"))) mw)) as ->.
  { unfold Main.uploadTo0x0, Main.fetch, bind, modify, gets, Main.lift. simpl.
    rewrite Hreply. by rewrite Hok. }
  simpl. rewrite lookup_insert_eq. simpl. unfold App.run_handler.
  rewrite resume_resolved. simpl. rewrite ?trim_idempotent.
  eexists _, _. split; [done|]. simpl. split; [|split; [done|split]].
  - unfold App.mark_success, App.mark_uploading.
    rewrite !list_lookup_imap, Hf. simpl.
    rewrite !bool_decide_eq_true_2 by done. simpl. by rewrite trim_idempotent.
  - rewrite !filter_app. simpl.
    destruct (App.autoCopy aw && _), (nonempty _); simpl;
      by rewrite ?app_nil_r.
  - rewrite !filter_app, !length_app. simpl.
    destruct (App.autoCopy aw && _), (nonempty _); simpl; lia.
Qed.

Lemma toggle_run aw answer :
  App.electronAPI aw = true →
  (App.toggleAutoCopy answer aw).2 =
    match answer (negb (App.autoCopy aw)) with
    | Returned true =>
        {| App.files := App.files aw; App.selectedService := App.selectedService aw;
           App.autoCopy := negb (App.autoCopy aw); App.electronAPI := App.electronAPI aw;
           App.pending := App.pending aw; App.nextTimer := App.nextTimer aw;
           App.calls := App.calls aw |}
    | _ => aw
    end.
Proof.
  intros Hapi. unfold App.toggleAutoCopy, bind, gets, when, try_catch, ret. simpl.
  rewrite Hapi. simpl. destruct (answer _) as [[]|]; simpl; by rewrite ?Hapi.
Qed.

(** X25: the auto-copy switch follows the main process: without
    [window.electronAPI] a toggle does nothing at all; with it, the toggle
    flips the [autoCopy] of the renderer exactly when the configuration
    can be written and leaves it alone otherwise, and nothing else of the
    renderer changes: not the files, the selected service, the uploads
    awaited, the handles or the calls; and when the configuration is an
    object, or absent, or corrupt, what [get-auto-copy] answers afterwards
    is the setting of the renderer. *)
Theorem toggle_follows_the_file aw mw :
  (App.electronAPI aw = false → Wiring.toggle_auto_copy aw mw = (aw, mw)) ∧
  (App.electronAPI aw = true →
   (Wiring.toggle_auto_copy aw mw).1 =
     {| App.files := App.files aw; App.selectedService := App.selectedService aw;
        App.autoCopy := (if Main.refuses_write mw then App.autoCopy aw
                         else negb (App.autoCopy aw));
        App.electronAPI := App.electronAPI aw;
        App.pending := App.pending aw; App.nextTimer := App.nextTimer aw;
        App.calls := App.calls aw |} ∧
   (∀ fields, Main.starting_config mw = Main.JObj fields →
      Main.configFile mw ≠ Main.IsDirectory →
      (Main.get_auto_copy (Wiring.toggle_auto_copy aw mw).2).1
        = Returned (Main.JBool (App.autoCopy (Wiring.toggle_auto_copy aw mw).1)))).
Proof.
  unfold Wiring.toggle_auto_copy. split; [by intros ->|].
  intros Hapi. rewrite Hapi. cbn [fst snd].
  rewrite toggle_run by done.
  pose proof (set_auto_copy_answer mw (negb (App.autoCopy aw))) as Hans.
  rewrite Hans. simpl. split.
  - clear Hans. destruct (Main.refuses_write mw), aw; simpl in *; by subst.
  - intros fields Hobj Hdir.
    rewrite (set_auto_copy_then_get _ _ fields) by done.
    assert (Main.refuses_write mw = false) as ->; [|done].
    unfold Main.refuses_write, Main.starting_config in *.
    destruct (Main.configFile mw) as [| | |[]]; done.
Qed.


Lemma saveCredentials_run api save form :
  (App.saveCredentials api save form).2 =
    if api && nonempty (trim (App.clientId form))
       && nonempty (trim (App.clientSecret form))
    then match save (trim (App.clientId form)) (trim (App.clientSecret form)) with
         | Returned _ =>
             {| App.clientId := App.clientId form;
                App.clientSecret := App.clientSecret form;
                App.googleCredentials :=
                  Some (trim (App.clientId form), trim (App.clientSecret form));
                App.showSettings := false |}
         | Threw _ => form
         end
    else form.
Proof.
  unfold App.saveCredentials, bind, gets, when, try_catch, modify, ret. simpl.
  destruct (api && _ && _); [|done]. by destruct (save _ _).
Qed.

(** X26: the settings form saves trimmed credentials or nothing: when
    [window.electronAPI] is missing or a field is blank, nothing is asked
    of the main process and nothing changes; otherwise, when the
    configuration cannot be written the form and the file stay as they
    are, and when it can the component holds the two trimmed strings, the
    form closes, and, for a configuration that is an object, absent or
    corrupt, [get-google-credentials] answers those same strings. *)
Theorem form_saves_trimmed_credentials api form mw :
  (api && nonempty (trim (App.clientId form))
   && nonempty (trim (App.clientSecret form)) = false →
   Wiring.save_credentials api form mw = (form, mw)) ∧
  (api && nonempty (trim (App.clientId form))
   && nonempty (trim (App.clientSecret form)) = true →
   (Main.refuses_write mw = true →
    (Wiring.save_credentials api form mw).1 = form ∧
    Main.configFile (Wiring.save_credentials api form mw).2 = Main.configFile mw) ∧
   (Main.refuses_write mw = false →
    App.googleCredentials (Wiring.save_credentials api form mw).1
      = Some (trim (App.clientId form), trim (App.clientSecret form)) ∧
    App.showSettings (Wiring.save_credentials api form mw).1 = false ∧
    ∀ fields, Main.starting_config mw = Main.JObj fields →
      (Main.get_google_credentials (Wiring.save_credentials api form mw).2).1
        = Returned (Main.JObj
                      [(str "clientId", Main.JStr (trim (App.clientId form)));
                       (str "clientSecret", Main.JStr (trim (App.clientSecret form)))]))).
Proof.
  unfold Wiring.save_credentials. rewrite saveCredentials_run.
  split; [by intros ->|]. intros Hsend. rewrite Hsend.
  apply andb_prop in Hsend as [Hsend Hsec]. apply andb_prop in Hsend as [_ Hid].
  set (i := trim (App.clientId form)) in *.
  set (s := trim (App.clientSecret form)) in *. clearbody i s.
  cbn [fst snd].
  split; [|split; [|split]]; intros; config_cases mw; try done; simplify_eq; simpl;
    rewrite ?own_property_parse_stringify, ?own_property_set_field,
      ?bool_decide_eq_true_2 by done; simpl;
    by rewrite ?Hid, ?Hsec.
Qed.

(** *** On sample worlds *)

Lemma upload_from_click_to_link_witness :
  ∃ aw' mw',
    Wiring.upload_and_resolve 0 (App.after [App.FileArrives App.a_txt])
      (Main.sample Main.NoFile None None (Returned Main.reply_200)) = Some (aw', mw') ∧
    App.files aw' !! 0%nat =
      Some {| App.path := App.a_txt; App.name := str "a.txt";
              App.state := App.Success; App.progress := 100;
              App.url := Some (str "https://0x0.st/abc.txt"); App.error := None |} ∧
    Main.network mw' = [Main.Fetch0x0 (replicate 10 x00) (str "a.txt")].
Proof.
  destruct (upload_from_click_to_link (App.after [App.FileArrives App.a_txt])
              (Main.sample Main.NoFile None None (Returned Main.reply_200)) 0%nat
              (App.new_file App.a_txt) (replicate 10 x00) Main.reply_200)
    as (aw' & mw' & Hrun & Hfile & Hnet & _); [vm_compute; reflexivity..|].
  exists aw', mw'. split; [exact Hrun|]. split; [exact Hfile|exact Hnet].
Defined.

Lemma toggle_follows_the_file_witness :
  App.electronAPI (App.after [App.SetSelectedService App.googledrive]) = true ∧
  (Wiring.toggle_auto_copy (App.after [App.SetSelectedService App.googledrive])
     (Main.sample (Main.Parsed Main.settings) None None (Returned Main.reply_200))).1
    = App.after [App.SetSelectedService App.googledrive; App.SetAutoCopyState true] ∧
  (Wiring.toggle_auto_copy (App.after [App.SetSelectedService App.googledrive])
     (Main.sample (Main.Parsed Main.JNull) None None (Returned Main.reply_200))).1
    = App.after [App.SetSelectedService App.googledrive].
Proof.
  split; [reflexivity|].
  destruct (toggle_follows_the_file (App.after [App.SetSelectedService App.googledrive])
              (Main.sample (Main.Parsed Main.settings) None None
                 (Returned Main.reply_200))) as [_ H1].
  destruct (toggle_follows_the_file (App.after [App.SetSelectedService App.googledrive])
              (Main.sample (Main.Parsed Main.JNull) None None
                 (Returned Main.reply_200))) as [_ H2].
  destruct (H1 eq_refl) as [-> _]. destruct (H2 eq_refl) as [-> _].
  split; vm_compute; reflexivity.
Defined.

End WiringFacts.
